(** * sniproxy: the connection pipeline of proxy.go

    A shallow embedding of [proxy.go] (package main of sniproxy): the access
    controller [clientAllowed], the route matcher [Match], the alert emitter
    [alert], the per-connection dispatcher [dispatchConn] and the accept loop
    [ListenAndServe], with the parts of Go's [net], [regexp] and [io]
    packages they call.

    Conventions.  A Go [byte] is a [Byte.byte]; a [[]byte] is a [list byte];
    a Go [int] that only ever holds a small count is a [Z]; a Go [string] is
    a [String.string]; an [error] is the text it prints.  Socket operations
    are recorded as a trace of [event]s; what the network answers is read
    from an explicit environment record. *)

From Stdlib Require Import String Ascii.
From Stdlib.Strings Require Import Byte.
From Stdlib Require Import List ZArith NArith Lia Bool Permutation.
Import ListNotations.

Local Open Scope Z_scope.

(* ===================================================================== *)
(** * Part I.  Definitions                                                *)
(* ===================================================================== *)

(** ** Bytes *)

(** The byte holding [n mod 256]. *)
Definition byte_of_N (n : N) : byte :=
  match Byte.of_N (n mod 256)%N with
  | Some b => b
  | None => x00
  end.

Definition byte_eqb (a b : byte) : bool := Byte.eqb a b.

Definition is_zero_byte (b : byte) : bool := byte_eqb b x00.

(** ** Package net: IP addresses, masks and networks *)

Module net.

(** [net.IP] and [net.IPMask] are byte slices; [nil] is [None] where the
    library distinguishes it from a slice. *)
Definition IP := list byte.
Definition IPMask := list byte.

Record IPNet := mkIPNet { ipnet_IP : IP; ipnet_Mask : IPMask }.

Definition IPv4len : nat := 4.
Definition IPv6len : nat := 16.

(** [isZeros]. *)
Definition isZeros (p : list byte) : bool := forallb is_zero_byte p.

(** [IP.To4]: the 4-byte form of an IPv4 address, [nil] otherwise. *)
Definition To4 (ip : IP) : option IP :=
  if Nat.eqb (length ip) IPv4len then Some ip
  else if Nat.eqb (length ip) IPv6len
          && isZeros (firstn 10 ip)
          && byte_eqb (nth 10 ip x00) xff
          && byte_eqb (nth 11 ip x00) xff
       then Some (skipn 12 ip)
       else None.

(** [networkNumberAndMask]: both [nil] ([None]) when the network is not
    well formed. *)
Definition networkNumberAndMask (n : IPNet) : option (IP * IPMask) :=
  let ip4 := To4 (ipnet_IP n) in
  let ipo := match ip4 with
             | Some ip => Some ip
             | None => if Nat.eqb (length (ipnet_IP n)) IPv6len
                       then Some (ipnet_IP n) else None
             end in
  match ipo with
  | None => None
  | Some ip =>
      if Nat.eqb (length (ipnet_Mask n)) IPv4len then
        if Nat.eqb (length ip) IPv4len then Some (ip, ipnet_Mask n) else None
      else if Nat.eqb (length (ipnet_Mask n)) IPv6len then
        if Nat.eqb (length ip) IPv4len
        then Some (ip, skipn 12 (ipnet_Mask n))
        else Some (ip, ipnet_Mask n)
      else None
  end.

(** The loop of [Contains]: [nn[i]&m[i] == ip[i]&m[i]] for every [i]
    below [len(ip)]. *)
Fixpoint sameNetwork (nn : IP) (m : IPMask) (ip : IP) : bool :=
  match ip with
  | [] => true
  | x :: ip' =>
      let a := nth 0 nn x00 in
      let k := nth 0 m x00 in
      N.eqb (N.land (Byte.to_N a) (Byte.to_N k))
            (N.land (Byte.to_N x) (Byte.to_N k))
      && sameNetwork (tl nn) (tl m) ip'
  end.

(** The method [Contains] of [IPNet]. *)
Definition Contains (n : IPNet) (ip : IP) : bool :=
  let ip' := match To4 ip with Some x => x | None => ip end in
  match networkNumberAndMask n with
  | None => Nat.eqb (length ip') 0
  | Some (nn, m) =>
      if Nat.eqb (length ip') (length nn) then sameNetwork nn m ip' else false
  end.

(** The inner loop of [simpleMaskLength]: while [v&0x80 != 0], count a
    one bit and shift the byte left.  Eight rounds empty any byte. *)
Fixpoint leadingOnes (rounds : nat) (v : N) (n : Z) : Z * N :=
  match rounds with
  | O => (n, v)
  | S rounds' =>
      if N.testbit v 7
      then leadingOnes rounds' (N.shiftl v 1 mod 256)%N (n + 1)
      else (n, v)
  end.

(** [simpleMaskLength], with the running count [n] as an accumulator:
    the number of leading ones of a mask made of ones followed by zeros,
    [-1] for any other mask. *)
Fixpoint simpleMaskLength_from (mask : IPMask) (n : Z) : Z :=
  match mask with
  | [] => n
  | v :: rest =>
      if byte_eqb v xff then simpleMaskLength_from rest (n + 8)
      else
        let '(n', v') := leadingOnes 8 (Byte.to_N v) n in
        if negb (N.eqb v' 0) then -1
        else if isZeros rest then n' else -1
  end.

Definition simpleMaskLength (mask : IPMask) : Z := simpleMaskLength_from mask 0.

(** [IPMask.Size]: [(ones, bits)], or [(0, 0)] for a mask that is not in
    canonical form. *)
Definition Size (m : IPMask) : Z * Z :=
  let ones := simpleMaskLength m in
  if Z.eqb ones (-1) then (0, 0) else (ones, Z.of_nat (length m) * 8).

(** [net.CIDRMask(ones, bits)] for [0 <= ones <= bits], [bits] 32 or 128. *)
Fixpoint maskBytes (len : nat) (ones : N) : IPMask :=
  match len with
  | O => []
  | S len' =>
      if (8 <=? ones)%N then xff :: maskBytes len' (ones - 8)
      else byte_of_N (N.land (N.shiftl 255 (8 - ones)) 255) :: maskBytes len' 0
  end.

Definition CIDRMask (ones : N) (bits : nat) : IPMask := maskBytes (bits / 8) ones.

(** An IPv4 address in its 4-byte form, and in the 16-byte form that
    [net.IPv4] returns. *)
Definition ip4 (a b c d : N) : IP := map byte_of_N [a; b; c; d].

Definition v4InV6Prefix : list byte :=
  [x00; x00; x00; x00; x00; x00; x00; x00; x00; x00; xff; xff].

Definition IPv4 (a b c d : N) : IP := v4InV6Prefix ++ ip4 a b c d.

(** The network [a.b.c.d/ones], as [net.ParseCIDR] builds it. *)
Definition cidr4 (a b c d : N) (ones : N) : IPNet :=
  mkIPNet (ip4 a b c d) (CIDRMask ones 32).

End net.

(** ** Package regexp: the matchers of a route *)

Module regexp.

(** A fragment of Go's regular expressions that covers hostname
    patterns: literals, [.], concatenation, alternation, [*] and the
    two text anchors [^] and [$]. *)
Inductive Regexp : Type :=
| Empty
| Lit (c : ascii)
| AnyChar
| Cat (r1 r2 : Regexp)
| Alt (r1 r2 : Regexp)
| Star (r : Regexp)
| BeginText
| EndText.

Definition newline : N := 10.

(** *** Code points

    The matcher reads its text one UTF-8 code point at a time, as
    [utf8.DecodeRuneInString] decodes it: a byte that starts no valid
    sequence is the code point [RuneError], one byte wide. *)

Definition RuneError : N := 65533.

Definition between (lo hi b : N) : bool := ((lo <=? b) && (b <=? hi))%N.

(** For a leading byte from 0x80 on: the length of the sequence it
    starts and the range its second byte must lie in; [None] for a byte
    that starts no sequence (the tables [first] and [acceptRanges]). *)
Definition leading (b0 : N) : option (nat * N * N) :=
  if between 0xC2 0xDF b0 then Some (2%nat, 0x80, 0xBF)%N
  else if (b0 =? 0xE0)%N then Some (3%nat, 0xA0, 0xBF)%N
  else if between 0xE1 0xEC b0 then Some (3%nat, 0x80, 0xBF)%N
  else if (b0 =? 0xED)%N then Some (3%nat, 0x80, 0x9F)%N
  else if between 0xEE 0xEF b0 then Some (3%nat, 0x80, 0xBF)%N
  else if (b0 =? 0xF0)%N then Some (4%nat, 0x90, 0xBF)%N
  else if between 0xF1 0xF3 b0 then Some (4%nat, 0x80, 0xBF)%N
  else if (b0 =? 0xF4)%N then Some (4%nat, 0x80, 0x8F)%N
  else None.

(** [utf8.DecodeRuneInString]: the first code point of [s] and its width
    in bytes; [(RuneError, 0)] for the empty string and [(RuneError, 1)]
    for an invalid or truncated sequence. *)
Definition DecodeRuneInString (s : string) : N * nat :=
  match s with
  | EmptyString => (RuneError, 0%nat)
  | String c0 rest =>
      let s0 := N_of_ascii c0 in
      if (s0 <? 0x80)%N then (s0, 1%nat)
      else
        match leading s0 with
        | None => (RuneError, 1%nat)
        | Some (sz, lo, hi) =>
            if Nat.ltb (String.length s) sz then (RuneError, 1%nat)
            else
              match rest with
              | EmptyString => (RuneError, 1%nat)
              | String c1 rest1 =>
                  let s1 := N_of_ascii c1 in
                  if negb (between lo hi s1) then (RuneError, 1%nat)
                  else if Nat.leb sz 2 then
                    (N.lor (N.shiftl (N.land s0 0x1F) 6) (N.land s1 0x3F),
                     2%nat)
                  else
                    match rest1 with
                    | EmptyString => (RuneError, 1%nat)
                    | String c2 rest2 =>
                        let s2 := N_of_ascii c2 in
                        if negb (between 0x80 0xBF s2) then (RuneError, 1%nat)
                        else if Nat.leb sz 3 then
                          (N.lor (N.lor (N.shiftl (N.land s0 0x0F) 12)
                                        (N.shiftl (N.land s1 0x3F) 6))
                                 (N.land s2 0x3F),
                           3%nat)
                        else
                          match rest2 with
                          | EmptyString => (RuneError, 1%nat)
                          | String c3 _ =>
                              let s3 := N_of_ascii c3 in
                              if negb (between 0x80 0xBF s3)
                              then (RuneError, 1%nat)
                              else
                                (N.lor
                                   (N.lor
                                      (N.lor (N.shiftl (N.land s0 0x07) 18)
                                             (N.shiftl (N.land s1 0x3F) 12))
                                      (N.shiftl (N.land s2 0x3F) 6))
                                   (N.land s3 0x3F),
                                 4%nat)
                          end
                    end
              end
        end
  end.

(** [s[n:]]. *)
Fixpoint dropBytes (n : nat) (s : string) : string :=
  match n, s with
  | O, _ => s
  | S n', String _ s' => dropBytes n' s'
  | S _, EmptyString => EmptyString
  end.

(** The code point a literal stands for: [Lit c] is the character with
    the code of [c] (U+0000 to U+00FF). *)
Definition litRune (c : ascii) : N := N_of_ascii c.

(** [accept re total s k]: some match of [re] starts at the front of [s]
    and leaves a rest that [k] accepts.  [total] is the length of the
    whole text, so that [^] can tell where the text starts.  A literal
    and [.] consume one code point; [.] takes any code point but the
    newline.  An iteration of [*] that consumes nothing is not
    repeated. *)
Fixpoint accept (re : Regexp) (total : nat) (s : string)
         (k : string -> bool) {struct re} : bool :=
  match re with
  | Empty => k s
  | Lit c =>
      match s with
      | String _ _ =>
          let '(r, width) := DecodeRuneInString s in
          N.eqb r (litRune c) && k (dropBytes width s)
      | EmptyString => false
      end
  | AnyChar =>
      match s with
      | String _ _ =>
          let '(r, width) := DecodeRuneInString s in
          negb (N.eqb r newline) && k (dropBytes width s)
      | EmptyString => false
      end
  | Cat r1 r2 => accept r1 total s (fun s' => accept r2 total s' k)
  | Alt r1 r2 => accept r1 total s k || accept r2 total s k
  | Star r =>
      (fix loop (rounds : nat) (s : string) {struct rounds} : bool :=
         k s ||
         match rounds with
         | O => false
         | S rounds' =>
             accept r total s
               (fun s' => Nat.ltb (String.length s') (String.length s)
                          && loop rounds' s')
         end) (String.length s) s
  | BeginText => Nat.eqb (String.length s) total && k s
  | EndText =>
      match s with
      | EmptyString => k s
      | String _ _ => false
      end
  end.

(** The unanchored search: a match is tried at the front of the text and
    then at the start of each later code point, the end of the text
    included.  [skip] counts the bytes still to pass before the next
    code point starts. *)
Fixpoint searchFrom (re : Regexp) (total : nat) (skip : nat) (s : string)
         {struct s} : bool :=
  match skip with
  | O =>
      accept re total s (fun _ => true)
      || match s with
         | String _ s' =>
             searchFrom re total (snd (DecodeRuneInString s) - 1) s'
         | EmptyString => false
         end
  | S skip' =>
      match s with
      | String _ s' => searchFrom re total skip' s'
      | EmptyString => false
      end
  end.

(** The method [MatchString] of a [Regexp]: "reports whether the string
    s contains any match of the regular expression re". *)
Definition MatchString (re : Regexp) (s : string) : bool :=
  searchFrom re (String.length s) 0 s.

Definition isEmptyString (s : string) : bool :=
  match s with EmptyString => true | String _ _ => false end.

(** [re] matches the entire string [s]: a match that starts at the
    front of [s] and leaves nothing. *)
Definition matchesWhole (re : Regexp) (s : string) : bool :=
  accept re (String.length s) s isEmptyString.

(** The pattern [^re$]. *)
Definition anchored (re : Regexp) : Regexp := Cat BeginText (Cat re EndText).

(** The pattern that spells out [s], each [.] of [s] standing for any
    character and every other character for itself. *)
Fixpoint pattern (s : string) : Regexp :=
  match s with
  | EmptyString => Empty
  | String c s' =>
      Cat (if Ascii.eqb c "."%char then AnyChar else Lit c) (pattern s')
  end.

(** The pattern [.*]. *)
Definition anything : Regexp := Star AnyChar.

End regexp.

(** ** Package config: routes *)

Module config.

(** Modelled from the spec: the package [config] that declares [Route]
    and [Config] is missing; a route has ordered hostname matchers
    (regular expressions, asked through [MatchString]), a backend
    address, a PROXY-protocol mode among none, v1 and v2, and allow and
    deny subnet lists; a configuration is an ordered sequence of
    routes. *)
Inductive ProxyMode : Type := ProxyNone | ProxyV1 | ProxyV2.

Definition ProxyMode_eqb (a b : ProxyMode) : bool :=
  match a, b with
  | ProxyNone, ProxyNone | ProxyV1, ProxyV1 | ProxyV2, ProxyV2 => true
  | _, _ => false
  end.

Record Route := mkRoute {
  Domains : list regexp.Regexp;
  Backend : string;
  SendProxy : ProxyMode;
  Allow : list net.IPNet;
  Deny : list net.IPNet
}.

Record Config := mkConfig { Routes : list Route }.

(** Modelled from the spec: the function of package [config] that
    compiles the hostname patterns of a route into its matchers is
    missing.  The spec gives a matcher full-string match semantics (a
    match of the hostname as a whole, not of a substring); for a regular
    expression that is asked through [MatchString], which searches, that
    is the pattern anchored at both ends. *)
Definition hostnameMatcher (re : regexp.Regexp) : regexp.Regexp :=
  regexp.anchored re.

(** A route as the configuration yields it: its matchers are compiled
    from hostname patterns. *)
Definition configured (route : Route) : Prop :=
  exists patterns, Domains route = map hostnameMatcher patterns.

End config.

(** ** proxy.go *)

(** An [error] is the message it carries. *)
Definition error := string.

Inductive result (A : Type) : Type :=
| Ok (a : A)
| Err (e : error).
Arguments Ok {A} a.
Arguments Err {A} e.

(** [type Proxy struct { Config config.Config }]. *)
Record Proxy := mkProxy { Config : config.Config }.

(** *** Match *)

(** The inner loop of [Match]: does some domain of the route match? *)
Fixpoint matchDomains (domains : list regexp.Regexp) (sni : string) : bool :=
  match domains with
  | [] => false
  | domain :: rest =>
      if regexp.MatchString domain sni then true else matchDomains rest sni
  end.

(** The outer loop of [Match]: the first route with a matching domain. *)
Fixpoint matchRoutes (routes : list config.Route) (sni : string)
  : option config.Route :=
  match routes with
  | [] => None
  | route :: rest =>
      if matchDomains (config.Domains route) sni then Some route
      else matchRoutes rest sni
  end.

(** [fmt.Errorf("No route matching the requested domain (%s)", sni)]. *)
Definition noRouteError (sni : string) : error :=
  ("No route matching the requested domain (" ++ sni ++ ")")%string.

Definition Match (p : Proxy) (sni : string) : result config.Route :=
  match matchRoutes (config.Routes (Config p)) sni with
  | Some route => Ok route
  | None => Err (noRouteError sni)
  end.

(** *** clientAllowed *)

(** [sz, _ := subnet.Mask.Size()]. *)
Definition maskSize (subnet : net.IPNet) : Z :=
  fst (net.Size (net.ipnet_Mask subnet)).

(** The loop over [route.Allow], started with the running value of
      [cidr]; it returns the final value of [cidr]. *)
Fixpoint allowLoop (allow : list net.IPNet) (ip : net.IP) (cidr : Z) : Z :=
  match allow with
  | [] => cidr
  | subnet :: rest =>
      if net.Contains subnet ip then
        let sz := maskSize subnet in
        if sz >? cidr then allowLoop rest ip sz else allowLoop rest ip cidr
      else allowLoop rest ip cidr
  end.

(** The loop over [route.Deny] and the final [return true]. *)
Fixpoint denyLoop (deny : list net.IPNet) (ip : net.IP) (cidr : Z) : bool :=
  match deny with
  | [] => true
  | subnet :: rest =>
      if net.Contains subnet ip then
        let sz := maskSize subnet in
        if sz >=? cidr then false else denyLoop rest ip cidr
      else denyLoop rest ip cidr
  end.

Definition clientAllowed (route : config.Route) (ip : net.IP) : bool :=
  if Nat.eqb (length (config.Allow route)) 0
     && Nat.eqb (length (config.Deny route)) 0
  then true
  else
    let cidr := allowLoop (config.Allow route) ip 0 in
    denyLoop (config.Deny route) ip cidr.

(** *** The access policy in the words of its description *)

(** The longest prefix length among the allow subnets that contain the
    address, 0 when none contains it. *)
Definition bestAllowPrefix (allow : list net.IPNet) (ip : net.IP) : Z :=
  fold_right Z.max 0
    (map maskSize (filter (fun subnet => net.Contains subnet ip) allow)).

(** Some deny subnet contains the address with a prefix length at least
    [best]. *)
Definition denyWins (deny : list net.IPNet) (ip : net.IP) (best : Z) : bool :=
  existsb (fun subnet => net.Contains subnet ip && (best <=? maskSize subnet))
          deny.

Definition accessPolicy (route : config.Route) (ip : net.IP) : bool :=
  match config.Allow route, config.Deny route with
  | [], [] => true
  | allow, deny => negb (denyWins deny ip (bestAllowPrefix allow ip))
  end.

(** ** Package io: reading a connection through a tee *)

Module io.

(** The state of [io.TeeReader(conn, &buf)]: the bytes the peer still
    has to deliver on [conn] ([source]) and the contents of [buf]
    ([sink]). *)
Record Tee := mkTee { source : list byte; sink : list byte }.

(** A computation that reads through the tee and may fail.  A failed
    computation keeps the state it reached: bytes read before the
    failure stay read, and stay in the buffer. *)
Definition Sniff (A : Type) : Type := Tee -> result A * Tee.

Definition fail {A : Type} (e : error) : Sniff A := fun st => (Err e, st).

Definition bind {A B : Type} (m : Sniff A) (f : A -> Sniff B) : Sniff B :=
  fun st =>
    match m st with
    | (Ok a, st') => f a st'
    | (Err e, st') => (Err e, st')
    end.

(** A pure step that may fail. *)
Definition lift {A : Type} (r : result A) : Sniff A := fun st => (r, st).

(** [io.ReadFull(r, p)] with [len(p) = n] on the tee: exactly [n] bytes,
    or an error once the peer delivers no more (end of stream or read
    deadline); what was delivered is consumed and copied to the buffer
    in both cases. *)
Definition ReadFull (n : nat) : Sniff (list byte) :=
  fun st =>
    let got := firstn n (source st) in
    let st' := mkTee (skipn n (source st)) (sink st ++ got) in
    if Nat.eqb (length got) n then (Ok got, st')
    else (Err "unexpected EOF"%string, st').

(** The bytes a run has consumed from a connection that started with
    [before] pending and is left with the pending bytes of [after]. *)
Definition consumed (before : list byte) (after : Tee) : list byte :=
  firstn (length before - length (source after)) before.

End io.

Declare Scope sniff_scope.
Delimit Scope sniff_scope with sniff.
Notation "x <- m ;; k" := (io.bind m (fun x => k))
  (at level 61, m at next level, right associativity) : sniff_scope.

(** ** The SNI extractor *)

Module sni.

Local Open Scope N_scope.

(** Big-endian fields of two and three bytes. *)
Definition be16 (hi lo : byte) : N := Byte.to_N hi * 256 + Byte.to_N lo.

Definition be24 (b2 b1 b0 : byte) : N :=
  Byte.to_N b2 * 65536 + Byte.to_N b1 * 256 + Byte.to_N b0.

Definition len (bs : list byte) : N := N.of_nat (length bs).

(** The first [n] bytes and the rest; no result when fewer remain. *)
Definition splitAt (n : N) (bs : list byte) : option (list byte * list byte) :=
  if n <=? len bs
  then Some (firstn (N.to_nat n) bs, skipn (N.to_nat n) bs)
  else None.

(** A vector with a one-byte, respectively two-byte, length prefix. *)
Definition vector8 (bs : list byte) : option (list byte * list byte) :=
  match bs with
  | l :: rest => splitAt (Byte.to_N l) rest
  | [] => None
  end.

Definition vector16 (bs : list byte) : option (list byte * list byte) :=
  match bs with
  | hi :: lo :: rest => splitAt (be16 hi lo) rest
  | _ => None
  end.

Definition contentTypeHandshake : byte := x16.
Definition handshakeTypeClientHello : byte := x01.
Definition nameTypeHostName : byte := x00.

(** The entries of a [server_name] list: the first [host_name] entry. *)
Fixpoint findHostName (rounds : nat) (names : list byte) : result string :=
  match rounds with
  | O => Err "malformed server name list"%string
  | S rounds' =>
      match names with
      | [] => Err "no host name in the server name extension"%string
      | typ :: rest =>
          match vector16 rest with
          | None => Err "malformed server name list"%string
          | Some (name, rest') =>
              if byte_eqb typ nameTypeHostName
              then Ok (string_of_list_byte name)
              else findHostName rounds' rest'
          end
      end
  end.

(** The data of a [server_name] extension: a two-byte length, then the
    entries. *)
Definition parseServerName (data : list byte) : result string :=
  match vector16 data with
  | None => Err "malformed server name extension"%string
  | Some (names, _) => findHostName (S (length names)) names
  end.

(** The extensions block: type (two bytes), length (two bytes), data;
    the first extension of type 0 is the [server_name] extension. *)
Fixpoint findServerName (rounds : nat) (exts : list byte) : result string :=
  match rounds with
  | O => Err "malformed extensions"%string
  | S rounds' =>
      match exts with
      | [] => Err "no server name extension"%string
      | t1 :: t0 :: rest =>
          match vector16 rest with
          | None => Err "malformed extensions"%string
          | Some (data, rest') =>
              if be16 t1 t0 =? 0 then parseServerName data
              else findServerName rounds' rest'
          end
      | _ => Err "malformed extensions"%string
      end
  end.

(** The body of a ClientHello: version (2), random (32), session id,
    cipher suites, compression methods, extensions. *)
Definition parseClientHello (hello : list byte) : result string :=
  match splitAt 34 hello with
  | None => Err "truncated client hello"%string
  | Some (_, rest) =>
      match vector8 rest with
      | None => Err "truncated client hello"%string
      | Some (_, rest) =>
          match vector16 rest with
          | None => Err "truncated client hello"%string
          | Some (_, rest) =>
              match vector8 rest with
              | None => Err "truncated client hello"%string
              | Some (_, rest) =>
                  match rest with
                  | [] => Err "no server name extension"%string
                  | _ =>
                      match vector16 rest with
                      | None => Err "malformed extensions"%string
                      | Some (exts, _) =>
                          findServerName (S (length exts)) exts
                      end
                  end
              end
          end
      end
  end.

(** The handshake message of the record: type (1), length (3), body. *)
Definition parseHandshake (msg : list byte) : result string :=
  match msg with
  | typ :: l2 :: l1 :: l0 :: rest =>
      if byte_eqb typ handshakeTypeClientHello then
        match splitAt (be24 l2 l1 l0) rest with
        | None => Err "truncated handshake"%string
        | Some (hello, _) => parseClientHello hello
        end
      else Err "not a client hello"%string
  | _ => Err "truncated handshake"%string
  end.

(** Modelled from the spec: the function [extractSNI] that [dispatchConn]
    calls is missing.  It reads the record header (content type,
    version, length, big-endian), fails unless the record is a
    handshake record, reads the record body and nothing after it, and
    returns the host name of the [server_name] extension (type 0, entry
    type 0) of the ClientHello; it fails when the message is not a
    ClientHello, when a length runs past the bytes that remain, or when
    there is no such extension. *)
Definition extractSNI : io.Sniff string :=
  (header <- io.ReadFull 5 ;;
   match header with
   | [typ; _; _; hi; lo] =>
       if byte_eqb typ contentTypeHandshake then
         body <- io.ReadFull (N.to_nat (be16 hi lo)) ;;
         io.lift (parseHandshake body)
       else io.fail "not a handshake record"%string
   | _ => io.fail "truncated record header"%string
   end)%sniff.

(** *** Well-formed ClientHello records and their wire form *)

Definition enc8 (n : N) : list byte := [byte_of_N n].

Definition enc16 (n : N) : list byte := [byte_of_N (n / 256); byte_of_N n].

Definition enc24 (n : N) : list byte :=
  [byte_of_N (n / 65536); byte_of_N (n / 256); byte_of_N n].

Record ServerName := mkServerName { nameType : byte; nameBytes : list byte }.

Record Extension := mkExtension { extType : byte * byte; extData : list byte }.

Record ClientHello := mkClientHello {
  recordVersion : byte * byte;
  clientVersion : byte * byte;
  random : list byte;
  sessionID : list byte;
  cipherSuites : list byte;
  compressionMethods : list byte;
  extensions : list Extension
}.

Definition encodeServerName (n : ServerName) : list byte :=
  nameType n :: enc16 (len (nameBytes n)) ++ nameBytes n.

Definition encodeServerNames (names : list ServerName) : list byte :=
  concat (map encodeServerName names).

(** The [server_name] extension that carries [names]. *)
Definition serverNameExtension (names : list ServerName) : Extension :=
  mkExtension (x00, x00)
    (enc16 (len (encodeServerNames names)) ++ encodeServerNames names).

Definition encodeExtension (e : Extension) : list byte :=
  fst (extType e) :: snd (extType e)
    :: enc16 (len (extData e)) ++ extData e.

Definition encodeExtensions (es : list Extension) : list byte :=
  concat (map encodeExtension es).

Definition encodeHello (ch : ClientHello) : list byte :=
  fst (clientVersion ch) :: snd (clientVersion ch) :: random ch
    ++ enc8 (len (sessionID ch)) ++ sessionID ch
    ++ enc16 (len (cipherSuites ch)) ++ cipherSuites ch
    ++ enc8 (len (compressionMethods ch)) ++ compressionMethods ch
    ++ enc16 (len (encodeExtensions (extensions ch)))
    ++ encodeExtensions (extensions ch).

Definition encodeHandshake (ch : ClientHello) : list byte :=
  handshakeTypeClientHello :: enc24 (len (encodeHello ch)) ++ encodeHello ch.

Definition encodeRecord (ch : ClientHello) : list byte :=
  contentTypeHandshake :: fst (recordVersion ch) :: snd (recordVersion ch)
    :: enc16 (len (encodeHandshake ch)) ++ encodeHandshake ch.

Definition isServerNameExt (e : Extension) : bool :=
  be16 (fst (extType e)) (snd (extType e)) =? 0.

Definition isHostName (n : ServerName) : bool :=
  byte_eqb (nameType n) nameTypeHostName.

(** Every length fits the field that carries it, and the handshake
    message fits one record. *)
Definition wellFormed (ch : ClientHello) : Prop :=
  len (random ch) = 32
  /\ len (sessionID ch) < 256
  /\ len (cipherSuites ch) < 65536
  /\ len (compressionMethods ch) < 256
  /\ Forall (fun e => len (extData e) < 65536) (extensions ch)
  /\ len (encodeHandshake ch) < 65536.

(** The ClientHello has a [server_name] extension, the first of its
    type, whose first [host_name] entry is [host]. *)
Definition carriesServerName (ch : ClientHello) (host : list byte) : Prop :=
  exists before names after others more,
    extensions ch = before ++ serverNameExtension names :: after
    /\ Forall (fun e => isServerNameExt e = false) before
    /\ names = others ++ mkServerName nameTypeHostName host :: more
    /\ Forall (fun n => isHostName n = false) others
    /\ Forall (fun n => len (nameBytes n) < 65536) names.

End sni.

(** ** Sockets, events and the environment of one connection *)

(** The two sockets of a connection: [conn] and [upstream]. *)
Inductive Sock : Type := Client | Upstream.

(** [time.Now().Add(3*time.Second)] and the zero [time.Time{}]. *)
Inductive Deadline : Type := In3Seconds | NoDeadline.

(** The two copy tasks of the relay: [io.Copy(upstream, conn)] and
    [io.Copy(conn, upstream)]. *)
Inductive Task : Type := CopyClientToUpstream | CopyUpstreamToClient.

(** What the dispatcher hands to [log]: the format and its arguments. *)
Inductive LogEntry : Type :=
| LogReadDeadline (e : error)
| LogClearDeadline (e : error)
| LogError (e : error)
| LogDenied (client : net.IP) (sni : string) (backend : string)
| LogReplayFailed (backend : string)
| LogRouting (remote : string) (sni : string) (backend : string)
| LogAlertDeadline (e : error)
| LogAlertWrite (e : error).

(** The operations a dispatcher performs, in the order it performs them.
    [Read bs]: the sniffing consumed [bs] from the client.  [Write s bs]:
    a write of [bs] on socket [s].  [Dial backend r]: a dial and its
    outcome.  [ProxyHeader]: the call of the PROXY-protocol encoder on the
    two sockets.  [Go t]: a copy task is started.  [Wait]: [wg.Wait()]. *)
Inductive event : Type :=
| SetReadDeadline (d : Deadline)
| Read (bs : list byte)
| SetKeepAlive (on : bool)
| SetKeepAlivePeriod
| SetWriteDeadline (d : Deadline)
| Write (s : Sock) (bs : list byte)
| Log (entry : LogEntry)
| Dial (backend : string) (failure : option error)
| ProxyHeader (mode : config.ProxyMode)
| Go (t : Task)
| Wait
| Close (s : Sock).

(** What the outside world answers to one connection: the bytes the
    client sends, its address, and the failure, if any, of each socket
    operation that can fail.  [proxyHeaderErr] is the error, if any,
    that [proxyHeader(route, conn, upstream)] returns: that function, the
    encoder of the PROXY-protocol header, is not part of [proxy.go]. *)
Record Env := mkEnv {
  setReadDeadlineErr : option error;
  clientBytes : list byte;
  clearReadDeadlineErr : option error;
  remoteIP : net.IP;
  remoteAddr : string;
  dialErr : option error;
  proxyHeaderErr : option error;
  replayErr : option error;
  alertDeadlineErr : option error;
  alertWriteErr : option error
}.

(** *** TLS alert message descriptions *)

Definition tlsAccessDenied : byte := byte_of_N 49.
Definition tlsInternalError : byte := byte_of_N 80.
Definition tlsUnrecognizedName : byte := byte_of_N 112.

(** *** alert *)

(** [bytes.NewBuffer([]byte{21, 3, 0, 0, 2, 2})] followed by
    [message.WriteByte(desc)]. *)
Definition alertMessage (desc : byte) : list byte :=
  map byte_of_N [21; 3; 0; 0; 2; 2]%N ++ [desc].

(** [(b *bytes.Buffer) WriteTo(w)]: one write of the unread bytes, none
    when the buffer is empty. *)
Definition WriteTo (w : Sock) (buf : list byte) : list event :=
  match buf with
  | [] => []
  | _ :: _ => [Write w buf]
  end.

(** The failure of [WriteTo], which an empty buffer cannot meet. *)
Definition WriteToErr (buf : list byte) (failure : option error) : option error :=
  match buf with
  | [] => None
  | _ :: _ => failure
  end.

(** [alert] returns nothing; its model is the trace it leaves. *)
Definition alert (env : Env) (desc : byte) : list event :=
  let message := alertMessage desc in
  match alertDeadlineErr env with
  | Some err => [SetWriteDeadline In3Seconds; Log (LogAlertDeadline err)]
  | None =>
      SetWriteDeadline In3Seconds :: WriteTo Client message ++
      match WriteToErr message (alertWriteErr env) with
      | Some err => [Log (LogAlertWrite err)]
      | None => []
      end
  end.

(** *** dispatchConn *)

(** The sniffing of line 68: [extractSNI] run on a fresh buffer teed from
    the client's bytes. *)
Definition sniff (env : Env) : result string * io.Tee :=
  sni.extractSNI (io.mkTee (clientBytes env) []).

(** From the replay of the handshake to the end of the relay; [buf] is
    the buffer filled while sniffing. *)
Definition replayAndRelay (env : Env) (route : config.Route)
           (sni : string) (buf : list byte) : list event :=
  WriteTo Upstream buf ++
  match WriteToErr buf (replayErr env) with
  | Some _ =>
      alert env tlsInternalError
        ++ [Log (LogReplayFailed (config.Backend route))]
  | None =>
      [Log (LogRouting (remoteAddr env) sni (config.Backend route));
       Go CopyClientToUpstream; Go CopyUpstreamToClient; Wait]
  end.

(** After a successful dial, up to the return; the deferred
    [upstream.Close()] is added by the caller. *)
Definition withUpstream (env : Env) (route : config.Route)
           (sni : string) (buf : list byte) : list event :=
  if negb (config.ProxyMode_eqb (config.SendProxy route) config.ProxyNone) then
    ProxyHeader (config.SendProxy route) ::
    match proxyHeaderErr env with
    | Some err => alert env tlsInternalError ++ [Log (LogError err)]
    | None => replayAndRelay env route sni buf
    end
  else replayAndRelay env route sni buf.

(** From the dial to the return. *)
Definition dialAndServe (env : Env) (route : config.Route)
           (sni : string) (buf : list byte) : list event :=
  match dialErr env with
  | Some err =>
      Dial (config.Backend route) (Some err)
        :: alert env tlsInternalError ++ [Log (LogError err)]
  | None =>
      Dial (config.Backend route) None
        :: withUpstream env route sni buf ++ [Close Upstream]
  end.

(** The body of [dispatchConn] without the deferred [conn.Close()]. *)
Definition dispatchBody (p : Proxy) (env : Env) : list event :=
  match setReadDeadlineErr env with
  | Some err =>
      SetReadDeadline In3Seconds
        :: alert env tlsInternalError ++ [Log (LogReadDeadline err)]
  | None =>
      let '(found, tee) := sniff env in
      SetReadDeadline In3Seconds :: Read (io.consumed (clientBytes env) tee) ::
      match found with
      | Err err => alert env tlsInternalError ++ [Log (LogError err)]
      | Ok sni =>
          match clearReadDeadlineErr env with
          | Some err =>
              SetReadDeadline NoDeadline
                :: alert env tlsInternalError ++ [Log (LogClearDeadline err)]
          | None =>
              SetReadDeadline NoDeadline :: SetKeepAlive true
                :: SetKeepAlivePeriod ::
              match Match p sni with
              | Err err => alert env tlsUnrecognizedName ++ [Log (LogError err)]
              | Ok route =>
                  let client := remoteIP env in
                  if negb (clientAllowed route client) then
                    alert env tlsAccessDenied
                      ++ [Log (LogDenied client sni (config.Backend route))]
                  else dialAndServe env route sni (io.sink tee)
              end
          end
      end
  end.

(** [dispatchConn] returns nothing; its model is the trace of the
    connection, ended by the deferred [conn.Close()]. *)
Definition dispatchConn (p : Proxy) (env : Env) : list event :=
  dispatchBody p env ++ [Close Client].

(** *** Observations on a trace *)

(** The bytes written on a socket, in order. *)
Fixpoint written (s : Sock) (tr : list event) : list byte :=
  match tr with
  | [] => []
  | Write s' bs :: tr' =>
      match s, s' with
      | Client, Client | Upstream, Upstream => bs ++ written s tr'
      | _, _ => written s tr'
      end
  | _ :: tr' => written s tr'
  end.

(** The trace touches the upstream side: a dial, the PROXY-protocol
    encoder, a write on the upstream socket, or a copy task. *)
Definition touchesUpstream (e : event) : bool :=
  match e with
  | Dial _ _ | ProxyHeader _ | Write Upstream _ | Go _ | Close Upstream => true
  | _ => false
  end.

Definition isGo (e : event) : bool :=
  match e with Go _ => true | _ => false end.

(** The events of a trace before the first copy task is started: what
    [dispatchConn] does itself before the relay. *)
Fixpoint untilRelay (tr : list event) : list event :=
  match tr with
  | [] => []
  | e :: tr' => if isGo e then [] else e :: untilRelay tr'
  end.

Definition dialedOk (e : event) : bool :=
  match e with Dial _ None => true | _ => false end.

(** If the event is a write on the upstream socket, it is a write of
    [buf]. *)
Definition upstreamWriteOf (buf : list byte) (e : event) : Prop :=
  match e with
  | Write Upstream bs => bs = buf
  | _ => True
  end.

(** *** The events of [alert] and the outcome of its operations *)

(** The events that only [alert] produces. *)
Definition ownedByAlert (e : event) : bool :=
  match e with
  | SetWriteDeadline _ | Write Client _
  | Log (LogAlertDeadline _) | Log (LogAlertWrite _) => true
  | _ => false
  end.

(** The same connection with other answers to the two operations of
    [alert]. *)
Definition withAlertOutcome (env : Env) (deadline write : option error) : Env :=
  mkEnv (setReadDeadlineErr env) (clientBytes env) (clearReadDeadlineErr env)
        (remoteIP env) (remoteAddr env) (dialErr env) (proxyHeaderErr env)
        (replayErr env) deadline write.

(** *** A monitor of the two sockets *)

Inductive UpstreamState : Type := NotDialed | UpstreamOpen | UpstreamClosed.

Record Sockets := mkSockets { clientOpen : bool; upstreamState : UpstreamState }.

Definition upstreamIsOpen (s : Sockets) : bool :=
  match upstreamState s with UpstreamOpen => true | _ => false end.

(** One event seen by the monitor: [None] when the event uses a socket
    that is not open, dials twice, or closes a socket that is not open. *)
Definition step (s : Sockets) (e : event) : option Sockets :=
  match e with
  | Log _ => Some s
  | Close Client =>
      if clientOpen s then Some (mkSockets false (upstreamState s)) else None
  | Close Upstream =>
      if upstreamIsOpen s then Some (mkSockets (clientOpen s) UpstreamClosed)
      else None
  | Dial _ failure =>
      match upstreamState s, failure with
      | NotDialed, None => Some (mkSockets (clientOpen s) UpstreamOpen)
      | NotDialed, Some _ => Some s
      | _, _ => None
      end
  | ProxyHeader _ | Write Upstream _ | Go _ | Wait =>
      if clientOpen s && upstreamIsOpen s then Some s else None
  | SetReadDeadline _ | Read _ | SetKeepAlive _ | SetKeepAlivePeriod
  | SetWriteDeadline _ | Write Client _ =>
      if clientOpen s then Some s else None
  end.

Fixpoint run (s : Sockets) (tr : list event) : option Sockets :=
  match tr with
  | [] => Some s
  | e :: tr' =>
      match step s e with
      | Some s' => run s' tr'
      | None => None
      end
  end.

(** At the start of [dispatchConn] the client socket is open and there is
    no upstream socket. *)
Definition accepted : Sockets := mkSockets true NotDialed.

(** ** The listener *)

(** One answer of [l.Accept()]: a connection, with everything the outside
    world will answer on it, or an error. *)
Inductive Accepted : Type :=
| AcceptOk (conn : Env)
| AcceptErr (e : error).

(** What the listener does: bind, accept, start a dispatcher task
    ([go p.dispatchConn(conn)]), and the deferred [l.Close()]. *)
Inductive ServeEvent : Type :=
| Listen (bind : string)
| Accept
| GoDispatch (conn : Env)
| CloseListener.

(** [ListenAndServe] either returns an error or is still in its loop,
    waiting in [Accept]. *)
Inductive Served : Type :=
| Returned (e : error)
| Serving.

(** The [for] loop: one round per answer of [Accept]. *)
Fixpoint acceptLoop (answers : list Accepted) : list ServeEvent * Served :=
  match answers with
  | [] => ([Accept], Serving)
  | AcceptErr err :: _ => ([Accept], Returned err)
  | AcceptOk conn :: rest =>
      let '(tr, r) := acceptLoop rest in
      (Accept :: GoDispatch conn :: tr, r)
  end.

(** [listenErr]: the failure, if any, of [net.Listen]; [answers]: the
    answers [Accept] will give, in order. *)
Definition ListenAndServe (p : Proxy) (bind : string)
           (listenErr : option error) (answers : list Accepted)
  : list ServeEvent * Served :=
  match listenErr with
  | Some err => ([Listen bind], Returned err)
  | None =>
      let '(tr, r) := acceptLoop answers in
      match r with
      | Returned err => (Listen bind :: tr ++ [CloseListener], Returned err)
      | Serving => (Listen bind :: tr, Serving)
      end
  end.

(** The number of calls of [Accept] in a trace. *)
Definition acceptCalls (tr : list ServeEvent) : nat :=
  length (filter (fun e => match e with Accept => true | _ => false end) tr).

(** The connections handed to a dispatcher task, in order. *)
Fixpoint dispatched (tr : list ServeEvent) : list Env :=
  match tr with
  | [] => []
  | GoDispatch conn :: tr' => conn :: dispatched tr'
  | _ :: tr' => dispatched tr'
  end.

(** ** Sample data *)

Module samples.

Import regexp config.

Definition net10_8 : net.IPNet := net.cidr4 10 0 0 0 8.
Definition net10_1_16 : net.IPNet := net.cidr4 10 1 0 0 16.

Definition aclRoute (allow deny : list net.IPNet) : Route :=
  mkRoute [anything] "127.0.0.1:9000" ProxyNone allow deny.

(** R1 names [a.com]; R2 takes everything. *)
Definition R1 : Route :=
  mkRoute [anchored (Cat (Lit "a") (Cat (Lit ".") (pattern "com")))]
          "10.0.0.1:443" ProxyNone [] [].
Definition R2 : Route := mkRoute [anything] "10.0.0.2:443" ProxyNone [] [].

(** A route for the hostname pattern [a.com]. *)
Definition strict : Route :=
  mkRoute [hostnameMatcher (pattern "a.com")] "10.0.0.1:443" ProxyNone [] [].

Definition strictProxy : Proxy := mkProxy (mkConfig [strict]).

(** A ClientHello for [svc.example.com], with a supported-groups
    extension before the [server_name] extension, whose list holds an
    entry of another type before the host name. *)
Definition host : list byte := list_byte_of_string "svc.example.com".

Definition groupsExt : sni.Extension :=
  sni.mkExtension (x00, x0a) [x00; x02; x00; x1d].
Definition formatsExt : sni.Extension :=
  sni.mkExtension (x00, x0b) [x01; x00].
Definition otherName : sni.ServerName := sni.mkServerName x01 [x41].

Definition hello : sni.ClientHello :=
  sni.mkClientHello (x03, x01) (x03, x03) (repeat x2a 32) [x01; x02]
    [x13; x01; x13; x02] [x00]
    [groupsExt;
     sni.serverNameExtension
       [otherName; sni.mkServerName sni.nameTypeHostName host];
     formatsExt].

(** What the client sends after its ClientHello. *)
Definition laterBytes : list byte := [x17; x03; x03; x00; x01; x2a].

(** A route for [svc.example.com] without access rules, and one that
    denies 10.0.0.0/8. *)
Definition svcRoute : config.Route :=
  config.mkRoute [regexp.anchored (regexp.pattern "svc.example.com")]
                 "127.0.0.1:9000" config.ProxyNone [] [].
Definition svcProxy : Proxy := mkProxy (config.mkConfig [R1; svcRoute]).
(** A connection from 10.0.0.7 on which every operation succeeds. *)
Definition env : Env :=
  mkEnv None (sni.encodeRecord hello ++ laterBytes) None
        (net.IPv4 10 0 0 7) "10.0.0.7:51234" None None None None None.
(** The same connection when the write deadline of the alert cannot be set. *)
Definition envNoWriteDeadline : Env :=
  withAlertOutcome env (Some "use of closed network connection"%string) None.
End samples.

(** *** Further observations on a trace *)

(** The payloads of the writes on the client socket, in order. *)
Fixpoint clientWrites (tr : list event) : list (list byte) :=
  match tr with
  | [] => []
  | Write Client bs :: tr' => bs :: clientWrites tr'
  | _ :: tr' => clientWrites tr'
  end.

(** The dials, in order: backend and outcome. *)
Fixpoint dials (tr : list event) : list (string * option error) :=
  match tr with
  | [] => []
  | Dial backend failure :: tr' => (backend, failure) :: dials tr'
  | _ :: tr' => dials tr'
  end.

(** The calls of the PROXY-protocol encoder, in order. *)
Fixpoint proxyCalls (tr : list event) : list config.ProxyMode :=
  match tr with
  | [] => []
  | ProxyHeader mode :: tr' => mode :: proxyCalls tr'
  | _ :: tr' => proxyCalls tr'
  end.

(** The log entries that [dispatchConn] itself writes (those of [alert]
    left out). *)
Fixpoint dispatcherLogs (tr : list event) : list LogEntry :=
  match tr with
  | [] => []
  | Log (LogAlertDeadline _) :: tr' | Log (LogAlertWrite _) :: tr' =>
      dispatcherLogs tr'
  | Log entry :: tr' => entry :: dispatcherLogs tr'
  | _ :: tr' => dispatcherLogs tr'
  end.

(** The steps of every connection that gets as far as the route lookup:
    read deadline, sniffing, deadline cleared, keep-alive. *)
Definition handshakeSteps (buf : list byte) : list event :=
  [SetReadDeadline In3Seconds; Read buf; SetReadDeadline NoDeadline;
   SetKeepAlive true; SetKeepAlivePeriod].

(** *** Further observations on the listener *)

(** The connections accepted before the first failed accept. *)
Fixpoint acceptedBeforeError (answers : list Accepted) : list Env :=
  match answers with
  | AcceptOk conn :: rest => conn :: acceptedBeforeError rest
  | _ => []
  end.

(** The error of the first failed accept, if any accept fails. *)
Fixpoint firstAcceptError (answers : list Accepted) : option error :=
  match answers with
  | [] => None
  | AcceptErr e :: _ => Some e
  | AcceptOk _ :: rest => firstAcceptError rest
  end.

Definition isCloseListener (e : ServeEvent) : bool :=
  match e with CloseListener => true | _ => false end.

(** ** More sample data *)

Module examples.

Import samples.

Definition net10_0_42_24 : net.IPNet := net.cidr4 10 0 42 0 24.

(** A route that asks for a PROXY-protocol header, without access
    rules. *)
Definition proxiedRoute : config.Route :=
  config.mkRoute [regexp.anchored (regexp.pattern "svc.example.com")]
                 "127.0.0.1:9000" config.ProxyV1 [] [].

Definition proxiedProxy : Proxy := mkProxy (config.mkConfig [proxiedRoute]).

(** A configuration that does not know [svc.example.com]. *)
Definition otherProxy : Proxy := mkProxy (config.mkConfig [R1]).

(** A client that speaks plain HTTP on the port. *)
Definition httpEnv : Env :=
  mkEnv None (list_byte_of_string "GET / HTTP/1.1") None
        (net.IPv4 10 0 0 7) "10.0.0.7:51234" None None None None None.

End examples.

(* ===================================================================== *)
(** * Part II.  Properties                                                *)
(* ===================================================================== *)

(** ** Access controller *)

Section AccessController.

Variable ip : net.IP.

Lemma bestAllowPrefix_nonneg (allow : list net.IPNet) :
  0 <= bestAllowPrefix allow ip.
Proof.
  unfold bestAllowPrefix.
  induction (map maskSize (filter (fun subnet => net.Contains subnet ip) allow))
    as [|z zs IH]; simpl; lia.
Qed.

Lemma bestAllowPrefix_cons (subnet : net.IPNet) (allow : list net.IPNet) :
  bestAllowPrefix (subnet :: allow) ip =
  if net.Contains subnet ip
  then Z.max (maskSize subnet) (bestAllowPrefix allow ip)
  else bestAllowPrefix allow ip.
Proof.
  unfold bestAllowPrefix; simpl.
  destruct (net.Contains subnet ip); reflexivity.
Qed.

(** The running maximum of the allow loop. *)
Lemma allowLoop_max (allow : list net.IPNet) :
  forall cidr, 0 <= cidr ->
    allowLoop allow ip cidr = Z.max cidr (bestAllowPrefix allow ip).
Proof.
  induction allow as [|subnet rest IH]; intros cidr Hc.
  - simpl. unfold bestAllowPrefix; simpl. lia.
  - rewrite bestAllowPrefix_cons. simpl.
    pose proof (bestAllowPrefix_nonneg rest) as Hb.
    destruct (net.Contains subnet ip).
    + destruct (maskSize subnet >? cidr) eqn:Hgt.
      * apply Z.gtb_lt in Hgt. rewrite IH by lia. lia.
      * rewrite Z.gtb_ltb in Hgt. apply Z.ltb_ge in Hgt.
        rewrite IH by lia. lia.
    + apply IH; assumption.
Qed.

(** The deny loop falls through exactly when no deny subnet wins. *)
Lemma denyLoop_denyWins (deny : list net.IPNet) (cidr : Z) :
  denyLoop deny ip cidr = negb (denyWins deny ip cidr).
Proof.
  induction deny as [|subnet rest IH]; simpl; [reflexivity|].
  destruct (net.Contains subnet ip); simpl; [|exact IH].
  rewrite Z.geb_leb.
  destruct (cidr <=? maskSize subnet); simpl; [reflexivity | exact IH].
Qed.

Lemma clientAllowed_accessPolicy (route : config.Route) :
  clientAllowed route ip = accessPolicy route ip.
Proof.
  unfold clientAllowed, accessPolicy.
  rewrite allowLoop_max by lia.
  rewrite Z.max_r by apply bestAllowPrefix_nonneg.
  rewrite denyLoop_denyWins.
  destruct (config.Allow route), (config.Deny route); reflexivity.
Qed.

End AccessController.

(** C1.  [clientAllowed] permits every client when both lists are empty;
    otherwise it takes the longest prefix length among the allow subnets
    that contain the address (0 when none does), denies when some deny
    subnet that contains the address has a prefix length at least that,
    and permits otherwise.  With allow 10.0.0.0/8 and deny 10.1.0.0/16 it
    denies 10.1.2.3; with allow and deny both 10.0.0.0/8 it denies
    10.0.0.1; with both lists empty it permits every address. *)
Theorem clientAllowed_longest_prefix_deny_wins_ties :
  (forall route ip,
      clientAllowed route ip =
      match config.Allow route, config.Deny route with
      | [], [] => true
      | allow, deny =>
          negb (existsb
                  (fun subnet =>
                     net.Contains subnet ip
                     && (bestAllowPrefix allow ip <=? maskSize subnet))
                  deny)
      end)
  /\ (forall allow ip,
         0 <= bestAllowPrefix allow ip
         /\ (bestAllowPrefix allow ip = 0
             \/ exists subnet, In subnet allow
                               /\ net.Contains subnet ip = true
                               /\ maskSize subnet = bestAllowPrefix allow ip)
         /\ (forall subnet, In subnet allow -> net.Contains subnet ip = true ->
                            maskSize subnet <= bestAllowPrefix allow ip))
  /\ clientAllowed (samples.aclRoute [samples.net10_8] [samples.net10_1_16])
                   (net.ip4 10 1 2 3) = false
  /\ clientAllowed (samples.aclRoute [samples.net10_8] [samples.net10_1_16])
                   (net.IPv4 10 1 2 3) = false
  /\ clientAllowed (samples.aclRoute [samples.net10_8] [samples.net10_8])
                   (net.ip4 10 0 0 1) = false
  /\ clientAllowed (samples.aclRoute [samples.net10_8] [samples.net10_8])
                   (net.IPv4 10 0 0 1) = false
  /\ (forall ip, clientAllowed (samples.aclRoute [] []) ip = true).
Proof.
  split; [|split].
  - intros route ip. apply clientAllowed_accessPolicy.
  - intros allow ip. split; [apply bestAllowPrefix_nonneg|]. split.
    + induction allow as [|s rest IH].
      * left; reflexivity.
      * rewrite bestAllowPrefix_cons.
        destruct (net.Contains s ip) eqn:Hc.
        -- destruct (Z.max_spec (maskSize s) (bestAllowPrefix rest ip))
             as [[Hlt ->]|[Hle ->]].
           ++ destruct IH as [H0|(s' & Hin & Hc' & Hs')].
              ** left; exact H0.
              ** right; exists s'; repeat split; simpl; auto.
           ++ right; exists s; repeat split; simpl; auto.
        -- destruct IH as [H0|(s' & Hin & Hc' & Hs')].
           ++ left; exact H0.
           ++ right; exists s'; repeat split; simpl; auto.
    + induction allow as [|s rest IH]; intros subnet Hin Hc; [destruct Hin|].
      rewrite bestAllowPrefix_cons.
      destruct Hin as [->|Hin].
      * rewrite Hc. lia.
      * specialize (IH subnet Hin Hc).
        destruct (net.Contains s ip); lia.
  - repeat split; try (vm_compute; reflexivity).
  Qed.

(** C10.  A route with a non-empty allow list and an empty deny list
    admits every client address, also those that no allow subnet
    contains. *)
Theorem clientAllowed_allow_list_alone_never_blocks :
  forall route ip,
    config.Allow route <> [] ->
    config.Deny route = [] ->
    clientAllowed route ip = true.
Proof.
  intros route ip Hallow Hdeny.
  unfold clientAllowed. rewrite Hdeny. simpl.
  destruct (Nat.eqb (length (config.Allow route)) 0 && true); reflexivity.
Qed.

Lemma clientAllowed_allow_list_alone_witness :
  net.Contains samples.net10_8 (net.IPv4 192 168 1 1) = false
  /\ clientAllowed (samples.aclRoute [samples.net10_8] []) (net.IPv4 192 168 1 1) = true.
Proof.
  split; [vm_compute; reflexivity|].
  apply (clientAllowed_allow_list_alone_never_blocks
           (samples.aclRoute [samples.net10_8] []) (net.IPv4 192 168 1 1)).
  - simpl. discriminate.
  - reflexivity.
Defined.

(** ** Regular expressions: searching and anchoring *)

Section Anchoring.

Import regexp.

Lemma searchFrom_eq (re : Regexp) (total : nat) (s : string) :
  searchFrom re total 0 s =
  accept re total s (fun _ => true)
  || match s with
     | String _ s' => searchFrom re total (snd (DecodeRuneInString s) - 1) s'
     | EmptyString => false
     end.
Proof. destruct s; reflexivity. Qed.

Lemma searchFrom_skip (re : Regexp) (total skip : nat) (c : ascii) (s : string) :
  searchFrom re total (S skip) (String c s) = searchFrom re total skip s.
Proof. reflexivity. Qed.

Lemma accept_anchored (re : Regexp) (total : nat) (s : string) :
  accept (anchored re) total s (fun _ => true) =
  Nat.eqb (String.length s) total && accept re total s isEmptyString.
Proof. reflexivity. Qed.

(** Past the start of the text, an anchored pattern finds nothing. *)
Lemma searchFrom_anchored_later (re : Regexp) (total : nat) :
  forall s skip, (String.length s < total)%nat ->
                 searchFrom (anchored re) total skip s = false.
Proof.
  induction s as [|c s IH]; intros skip Hlen.
  - destruct skip; [|reflexivity].
    rewrite searchFrom_eq, accept_anchored.
    destruct (Nat.eqb_spec (String.length "") total) as [E|_];
      [simpl in *; lia | reflexivity].
  - simpl in Hlen. destruct skip as [|skip].
    + rewrite searchFrom_eq, accept_anchored.
      destruct (Nat.eqb_spec (String.length (String c s)) total) as [E|_];
        [simpl in E; lia|].
      rewrite IH by lia. reflexivity.
    + rewrite searchFrom_skip. apply IH. lia.
Qed.

(** A search for [^re$] is a match of [re] against the whole text. *)
Lemma MatchString_anchored (re : Regexp) (s : string) :
  MatchString (anchored re) s = matchesWhole re s.
Proof.
  unfold MatchString, matchesWhole.
  rewrite searchFrom_eq, accept_anchored, Nat.eqb_refl.
  destruct s as [|c s].
  - rewrite orb_false_r. reflexivity.
  - rewrite searchFrom_anchored_later by (simpl; lia).
    rewrite orb_false_r. reflexivity.
Qed.

End Anchoring.

(** ** Route matcher *)

Section RouteMatcher.

Variable sni : string.

Lemma matchDomains_true (domains : list regexp.Regexp) :
  matchDomains domains sni = true <->
  exists domain, In domain domains /\ regexp.MatchString domain sni = true.
Proof.
  induction domains as [|d ds IH]; simpl.
  - split; [discriminate | intros (d & [] & _)].
  - destruct (regexp.MatchString d sni) eqn:Hd.
    + split; [|reflexivity]. intros _. exists d; auto.
    + rewrite IH. split.
      * intros (d' & Hin & Hm). exists d'; auto.
      * intros (d' & [->|Hin] & Hm); [congruence|]. exists d'; auto.
Qed.

Lemma matchDomains_false (domains : list regexp.Regexp) :
  matchDomains domains sni = false <->
  forall domain, In domain domains -> regexp.MatchString domain sni = false.
Proof.
  induction domains as [|d ds IH]; simpl.
  - split; [intros _ d []|reflexivity].
  - destruct (regexp.MatchString d sni) eqn:Hd.
    + split; [discriminate|]. intros H. rewrite <- Hd. apply H; auto.
    + rewrite IH. split.
      * intros H d' [->|Hin]; auto.
      * intros H d' Hin. apply H; auto.
Qed.

(** The outer loop stops at the first route that has a matching
    domain. *)
Lemma matchRoutes_Some (routes : list config.Route) (route : config.Route) :
  matchRoutes routes sni = Some route <->
  exists before after,
    routes = before ++ route :: after
    /\ Forall (fun r => matchDomains (config.Domains r) sni = false) before
    /\ matchDomains (config.Domains route) sni = true.
Proof.
  induction routes as [|r rs IH]; simpl.
  - split; [discriminate|]. intros (b & a & H & _). destruct b; discriminate.
  - destruct (matchDomains (config.Domains r) sni) eqn:Hr.
    + split.
      * intros [= <-]. exists [], rs. auto.
      * intros (b & a & Heq & Hb & Hm). destruct b as [|r' b]; simpl in Heq.
        -- congruence.
        -- injection Heq as -> ->. inversion Hb; congruence.
    + rewrite IH. split.
      * intros (b & a & -> & Hb & Hm). exists (r :: b), a. auto.
      * intros (b & a & Heq & Hb & Hm). destruct b as [|r' b]; simpl in Heq.
        -- injection Heq as -> ->. congruence.
        -- injection Heq as -> ->. inversion Hb; subst. exists b, a. auto.
Qed.

Lemma matchRoutes_None (routes : list config.Route) :
  matchRoutes routes sni = None <->
  Forall (fun r => matchDomains (config.Domains r) sni = false) routes.
Proof.
  induction routes as [|r rs IH]; simpl.
  - split; auto.
  - destruct (matchDomains (config.Domains r) sni) eqn:Hr.
    + split; [discriminate|]. intro H; inversion H; congruence.
    + rewrite IH. split; [auto|]. intro H; inversion H; assumption.
Qed.

Lemma matchRoutes_In (routes : list config.Route) (route : config.Route) :
  matchRoutes routes sni = Some route ->
  In route routes /\ matchDomains (config.Domains route) sni = true.
Proof.
  intro H. apply matchRoutes_Some in H as (b & a & -> & _ & Hm).
  split; [apply in_or_app; right; left; reflexivity | exact Hm].
Qed.

Lemma Match_Ok (p : Proxy) (route : config.Route) :
  Match p sni = Ok route <->
  matchRoutes (config.Routes (Config p)) sni = Some route.
Proof.
  unfold Match.
  destruct (matchRoutes (config.Routes (Config p)) sni);
    split; intro H; inversion H; reflexivity.
Qed.

Lemma Match_Err (p : Proxy) (e : error) :
  Match p sni = Err e <->
  matchRoutes (config.Routes (Config p)) sni = None /\ e = noRouteError sni.
Proof.
  unfold Match.
  destruct (matchRoutes (config.Routes (Config p)) sni); split.
  - discriminate.
  - intros [H _]; discriminate.
  - intros [= <-]; auto.
  - intros [_ ->]; reflexivity.
Qed.

End RouteMatcher.

(** C5.  [Match] tries the routes in declaration order and returns the
    first one that has a matcher matching the hostname, however general
    the matchers of later routes are: with R1 (matching "a.com") declared
    before R2 (matching everything), the match of "a.com" is R1.  When no
    route matches it fails with an error that quotes the hostname. *)
Theorem Match_first_route_in_declaration_order :
  (forall p sni route,
      Match p sni = Ok route <->
      exists before after,
        config.Routes (Config p) = before ++ route :: after
        /\ (forall r domain, In r before -> In domain (config.Domains r) ->
                             regexp.MatchString domain sni = false)
        /\ (exists domain, In domain (config.Domains route)
                           /\ regexp.MatchString domain sni = true))
  /\ (forall p sni e,
         Match p sni = Err e <->
         (forall r domain, In r (config.Routes (Config p)) ->
                           In domain (config.Domains r) ->
                           regexp.MatchString domain sni = false)
         /\ e = ("No route matching the requested domain (" ++ sni ++ ")")%string)
  /\ (forall R1 R2 rest sni,
         (exists domain, In domain (config.Domains R1)
                         /\ regexp.MatchString domain sni = true) ->
         Match (mkProxy (config.mkConfig (R1 :: R2 :: rest))) sni = Ok R1)
  /\ matchDomains (config.Domains samples.R1) "a.com" = true
  /\ matchDomains (config.Domains samples.R2) "a.com" = true
  /\ Match (mkProxy (config.mkConfig [samples.R1; samples.R2])) "a.com"
     = Ok samples.R1
  /\ Match (mkProxy (config.mkConfig [samples.R1; samples.R2])) "b.org"
     = Ok samples.R2
  /\ Match (mkProxy (config.mkConfig [samples.R1])) "b.org"
     = Err "No route matching the requested domain (b.org)"%string.
Proof.
  split; [|split; [|split]].
  - intros p sni route. rewrite Match_Ok, matchRoutes_Some.
    split; intros (b & a & Heq & Hb & Hm); exists b, a; split; auto; split.
    + intros r d Hr Hd. rewrite Forall_forall in Hb.
      exact (proj1 (matchDomains_false sni _) (Hb r Hr) d Hd).
    + apply matchDomains_true; exact Hm.
    + apply Forall_forall. intros r Hr. apply matchDomains_false.
      intros d Hd. exact (Hb r d Hr Hd).
    + apply matchDomains_true; exact Hm.
  - intros p sni e. rewrite Match_Err, matchRoutes_None, Forall_forall.
    split; intros [H ->]; split; auto.
    + intros r d Hr Hd. exact (proj1 (matchDomains_false sni _) (H r Hr) d Hd).
    + intros r Hr. apply matchDomains_false. intros d Hd. exact (H r d Hr Hd).
  - intros R1 R2 rest sni Hm. apply Match_Ok. simpl.
    apply matchDomains_true in Hm. rewrite Hm. reflexivity.
  - repeat split; vm_compute; reflexivity.
Qed.

(** C2.  A route as the configuration yields it, with matchers compiled
    from hostname patterns, is returned by [Match] only when one of its
    patterns matches the entire hostname; when none of its patterns
    matches the entire hostname the route is not returned, whether or not
    a pattern matches some proper substring of the hostname. *)
Theorem Match_selects_only_on_full_string_match :
  forall p sni route,
    config.configured route ->
    (Match p sni = Ok route ->
     exists re,
       In (config.hostnameMatcher re) (config.Domains route)
       /\ regexp.matchesWhole re sni = true)
    /\ ((forall re, In (config.hostnameMatcher re) (config.Domains route) ->
                    regexp.matchesWhole re sni = false) ->
        Match p sni <> Ok route).
Proof.
  intros p sni route (patterns & Hdomains).
  assert (Hsel : Match p sni = Ok route ->
                 exists re,
                   In (config.hostnameMatcher re) (config.Domains route)
                   /\ regexp.matchesWhole re sni = true).
  { intro H. apply Match_Ok, matchRoutes_In in H as [_ Hm].
    apply matchDomains_true in Hm as (d & Hd & Hs).
    pose proof Hd as Hd'. rewrite Hdomains in Hd'.
    apply in_map_iff in Hd' as (re & <- & _).
    exists re. split; [exact Hd|].
    unfold config.hostnameMatcher in Hs.
    rewrite MatchString_anchored in Hs. exact Hs. }
  split; [exact Hsel|].
  intros Hnone H. destruct (Hsel H) as (re & Hin & Hw).
  rewrite (Hnone re Hin) in Hw. discriminate.
Qed.

Lemma Match_full_string_witness :
  ((Match samples.strictProxy "xa.com.evil.org" = Ok samples.strict ->
    exists re,
      In (config.hostnameMatcher re) (config.Domains samples.strict)
      /\ regexp.matchesWhole re "xa.com.evil.org" = true)
   /\ ((forall re,
           In (config.hostnameMatcher re) (config.Domains samples.strict) ->
           regexp.matchesWhole re "xa.com.evil.org" = false) ->
       Match samples.strictProxy "xa.com.evil.org" <> Ok samples.strict))
  /\ regexp.matchesWhole (regexp.pattern "a.com") "a.com" = true
  /\ regexp.matchesWhole (regexp.pattern "a.com") "xa.com.evil.org" = false
  /\ Match samples.strictProxy "a.com" = Ok samples.strict
  /\ Match samples.strictProxy "xa.com.evil.org"
     = Err (noRouteError "xa.com.evil.org").
Proof.
  split.
  - apply (Match_selects_only_on_full_string_match
             samples.strictProxy "xa.com.evil.org" samples.strict).
    exists [regexp.pattern "a.com"]. reflexivity.
  - repeat split; vm_compute; reflexivity.
Defined.

(** ** The SNI extractor on the wire form of a ClientHello *)

Section Wire.
Import sni.
Local Open Scope N_scope.

Lemma to_N_byte_of_N (n : N) : Byte.to_N (byte_of_N n) = n mod 256.
Proof.
  unfold byte_of_N.
  destruct (Byte.of_N (n mod 256)) as [b|] eqn:E.
  - apply Byte.to_of_N in E. exact E.
  - apply Byte.of_N_None_iff in E.
    pose proof (N.mod_upper_bound n 256). lia.
Qed.

Lemma byte_small (n : N) : n < 256 -> Byte.to_N (byte_of_N n) = n.
Proof. intro H. rewrite to_N_byte_of_N. apply N.mod_small; exact H. Qed.

Lemma be16_enc (n : N) :
  n < 65536 -> be16 (byte_of_N (n / 256)) (byte_of_N n) = n.
Proof.
  intro H. unfold be16. rewrite !to_N_byte_of_N.
  assert (n / 256 < 256) by (apply N.Div0.div_lt_upper_bound; lia).
  rewrite (N.mod_small (n / 256)) by assumption.
  pose proof (N.div_mod n 256). lia.
Qed.

Lemma be24_enc (n : N) :
  n < 65536 ->
  be24 (byte_of_N (n / 65536)) (byte_of_N (n / 256)) (byte_of_N n) = n.
Proof.
  intro H. unfold be24. rewrite !to_N_byte_of_N.
  rewrite (N.div_small n 65536) by assumption.
  assert (n / 256 < 256) by (apply N.Div0.div_lt_upper_bound; lia).
  rewrite (N.mod_small (n / 256)) by assumption.
  pose proof (N.div_mod n 256). rewrite N.Div0.mod_0_l. lia.
Qed.

Lemma len_app (a b : list byte) : len (a ++ b) = len a + len b.
Proof. unfold len. rewrite length_app. lia. Qed.

Lemma len_cons (x : byte) (a : list byte) : len (x :: a) = 1 + len a.
Proof. unfold len. simpl length. lia. Qed.

Lemma firstn_length_app (a b : list byte) : firstn (length a) (a ++ b) = a.
Proof. induction a; simpl; congruence. Qed.

Lemma skipn_length_app (a b : list byte) : skipn (length a) (a ++ b) = b.
Proof. induction a; simpl; congruence. Qed.

Lemma splitAt_app (a b : list byte) : splitAt (len a) (a ++ b) = Some (a, b).
Proof.
  unfold splitAt. rewrite len_app.
  destruct (N.leb_spec (len a) (len a + len b)) as [_|H]; [|lia].
  unfold len. rewrite Nat2N.id, firstn_length_app, skipn_length_app.
  reflexivity.
Qed.

Lemma splitAt_all (a : list byte) : splitAt (len a) a = Some (a, []).
Proof. rewrite <- (app_nil_r a) at 2. apply splitAt_app. Qed.

Lemma vector8_enc (a b : list byte) :
  len a < 256 -> vector8 (enc8 (len a) ++ a ++ b) = Some (a, b).
Proof.
  intro H. unfold enc8. cbn [app vector8].
  rewrite byte_small by exact H. apply splitAt_app.
Qed.

Lemma vector16_enc (a b : list byte) :
  len a < 65536 -> vector16 (enc16 (len a) ++ a ++ b) = Some (a, b).
Proof.
  intro H. unfold enc16. cbn [app vector16].
  rewrite be16_enc by exact H. apply splitAt_app.
Qed.


Lemma vector16_enc_all (a : list byte) :
  len a < 65536 -> vector16 (enc16 (len a) ++ a) = Some (a, []).
Proof.
  intro H. rewrite <- (app_nil_r a) at 2. apply vector16_enc; exact H.
Qed.

Lemma encodeServerNames_cons (n : ServerName) (ns : list ServerName) :
  encodeServerNames (n :: ns) =
  nameType n :: enc16 (len (nameBytes n)) ++ nameBytes n ++ encodeServerNames ns.
Proof.
  unfold encodeServerNames, encodeServerName. cbn [map concat].
  cbn [app]. rewrite <- app_assoc. reflexivity.
Qed.

Lemma encodeExtensions_cons (e : Extension) (es : list Extension) :
  encodeExtensions (e :: es) =
  fst (extType e) :: snd (extType e)
    :: enc16 (len (extData e)) ++ extData e ++ encodeExtensions es.
Proof.
  unfold encodeExtensions, encodeExtension. cbn [map concat].
  cbn [app]. rewrite <- app_assoc. reflexivity.
Qed.

(** The entries before the first [host_name] entry are skipped. *)
Lemma findHostName_first (host : list byte) (more : list ServerName) :
  forall others rounds,
    Forall (fun n => isHostName n = false) others ->
    Forall (fun n => len (nameBytes n) < 65536)
           (others ++ mkServerName nameTypeHostName host :: more) ->
    (length others < rounds)%nat ->
    findHostName rounds
      (encodeServerNames (others ++ mkServerName nameTypeHostName host :: more))
    = Ok (string_of_list_byte host).
Proof.
  induction others as [|n others IH]; intros rounds Hno Hlen Hr;
    (destruct rounds as [|rounds]; [simpl in Hr; lia|]);
    cbn [app] in *; rewrite encodeServerNames_cons; cbn [findHostName];
    inversion Hlen as [|? ? Hn Hrest]; subst;
    rewrite vector16_enc by exact Hn.
  - reflexivity.
  - inversion Hno as [|? ? Hn0 Hno']; subst.
    unfold isHostName in Hn0. rewrite Hn0.
    apply IH; auto. simpl in Hr. lia.
Qed.

Lemma length_encodeServerNames (names : list ServerName) :
  (length names <= length (encodeServerNames names))%nat.
Proof.
  induction names as [|n ns IH]; [simpl; lia|].
  rewrite encodeServerNames_cons. simpl. rewrite !length_app. simpl. lia.
Qed.

Lemma length_encodeExtensions (es : list Extension) :
  (length es <= length (encodeExtensions es))%nat.
Proof.
  induction es as [|e es IH]; [simpl; lia|].
  rewrite encodeExtensions_cons. simpl. rewrite !length_app. simpl. lia.
Qed.

Lemma parseServerName_extension (host : list byte)
      (others more : list ServerName) :
  Forall (fun n => isHostName n = false) others ->
  Forall (fun n => len (nameBytes n) < 65536)
         (others ++ mkServerName nameTypeHostName host :: more) ->
  len (extData (serverNameExtension
                  (others ++ mkServerName nameTypeHostName host :: more)))
  < 65536 ->
  parseServerName
    (extData (serverNameExtension
                (others ++ mkServerName nameTypeHostName host :: more)))
  = Ok (string_of_list_byte host).
Proof.
  intros Hno Hlen Hdata. unfold serverNameExtension in *. cbn [extData] in *.
  unfold parseServerName.
  set (names := others ++ mkServerName nameTypeHostName host :: more) in *.
  rewrite len_app in Hdata.
  rewrite vector16_enc_all by lia.
  apply findHostName_first; auto.
  pose proof (length_encodeServerNames names) as Hl.
  subst names. rewrite length_app in Hl. simpl in Hl. lia.
Qed.

(** The extensions before the [server_name] extension are skipped. *)
Lemma findServerName_first (names : list ServerName) (after : list Extension) :
  forall before rounds,
    Forall (fun e => isServerNameExt e = false) before ->
    Forall (fun e => len (extData e) < 65536)
           (before ++ serverNameExtension names :: after) ->
    (length before < rounds)%nat ->
    findServerName rounds
      (encodeExtensions (before ++ serverNameExtension names :: after))
    = parseServerName (extData (serverNameExtension names)).
Proof.
  induction before as [|e before IH]; intros rounds Hno Hlen Hr;
    (destruct rounds as [|rounds]; [simpl in Hr; lia|]);
    cbn [app] in *; rewrite encodeExtensions_cons; cbn [findServerName];
    inversion Hlen as [|? ? He Hrest]; subst;
    rewrite vector16_enc by exact He.
  - reflexivity.
  - inversion Hno as [|? ? He0 Hno']; subst.
    unfold isServerNameExt in He0. rewrite He0.
    apply IH; auto. simpl in Hr. lia.
Qed.


Lemma len_encodeHello (ch : ClientHello) :
  len (encodeHello ch) =
  len (random ch) + len (sessionID ch) + len (cipherSuites ch)
  + len (compressionMethods ch) + len (encodeExtensions (extensions ch)) + 8.
Proof.
  unfold len, encodeHello, enc8, enc16.
  repeat (cbn [length app] || rewrite length_app). lia.
Qed.

Lemma len_encodeHandshake (ch : ClientHello) :
  len (encodeHandshake ch) = len (encodeHello ch) + 4.
Proof.
  unfold encodeHandshake, enc24. cbn [app]. rewrite !len_cons. lia.
Qed.

Section Hello.

Variable ch : ClientHello.
Variable host : list byte.
Hypothesis Hwf : wellFormed ch.
Hypothesis Hsni : carriesServerName ch host.

Lemma parseClientHello_encodeHello :
  parseClientHello (encodeHello ch) = Ok (string_of_list_byte host).
Proof.
  destruct Hwf as (Hrand & Hsid & Hcs & Hcm & Hexts & Hhs).
  destruct Hsni as (before & names & after & others & more
                    & Hext & Hbefore & Hnames & Hothers & Hlens).
  rewrite len_encodeHandshake, len_encodeHello in Hhs.
  unfold parseClientHello, encodeHello.
  change (fst (clientVersion ch) :: snd (clientVersion ch) :: random ch ++ ?x)
    with ((fst (clientVersion ch) :: snd (clientVersion ch) :: random ch) ++ x).
  replace 34 with (len (fst (clientVersion ch) :: snd (clientVersion ch)
                            :: random ch))
    by (rewrite !len_cons; lia).
  rewrite splitAt_app.
  rewrite vector8_enc by exact Hsid.
  rewrite vector16_enc by exact Hcs.
  rewrite vector8_enc by exact Hcm.
  rewrite vector16_enc_all by lia.
  unfold enc16. cbn [app].
  rewrite Hext in *.
  rewrite findServerName_first; auto.
  - subst names. apply parseServerName_extension; auto.
    rewrite Forall_forall in Hexts. apply Hexts.
    apply in_or_app. right. left. reflexivity.
  - pose proof (length_encodeExtensions
                  (before ++ serverNameExtension names :: after)) as Hl.
    rewrite length_app in Hl. simpl in Hl. lia.
Qed.

Lemma parseHandshake_encodeHandshake :
  parseHandshake (encodeHandshake ch) = Ok (string_of_list_byte host).
Proof.
  pose proof Hwf as (_ & _ & _ & _ & _ & Hhs).
  rewrite len_encodeHandshake in Hhs.
  unfold parseHandshake, encodeHandshake, enc24. cbn [app].
  change (byte_eqb handshakeTypeClientHello handshakeTypeClientHello) with true.
  cbv iota.
  rewrite be24_enc by lia.
  rewrite splitAt_all.
  apply parseClientHello_encodeHello.
Qed.

End Hello.

Lemma ReadFull_exact (a b buf : list byte) :
  io.ReadFull (length a) (io.mkTee (a ++ b) buf)
  = (Ok a, io.mkTee b (buf ++ a)).
Proof.
  unfold io.ReadFull. cbn [io.source io.sink].
  rewrite firstn_length_app, skipn_length_app, Nat.eqb_refl. reflexivity.
Qed.

(** A read leaves in the buffer what it took from the connection. *)
Lemma ReadFull_tee (n : nat) (st : io.Tee) :
  exists bs, io.source st = bs ++ io.source (snd (io.ReadFull n st))
             /\ io.sink (snd (io.ReadFull n st)) = io.sink st ++ bs.
Proof.
  exists (firstn n (io.source st)). unfold io.ReadFull.
  destruct (Nat.eqb _ n); cbn [snd io.source io.sink];
    rewrite firstn_skipn; auto.
Qed.

Lemma extractSNI_record (ch : ClientHello) (host rest : list byte) :
  wellFormed ch -> carriesServerName ch host ->
  extractSNI (io.mkTee (encodeRecord ch ++ rest) [])
  = (Ok (string_of_list_byte host), io.mkTee rest (encodeRecord ch)).
Proof.
  intros Hwf Hsni.
  pose proof Hwf as (_ & _ & _ & _ & _ & Hhs).
  unfold extractSNI, encodeRecord, enc16, io.bind. cbn [app].
  change (io.ReadFull 5 ?st) with
    (io.ReadFull (length [contentTypeHandshake; fst (recordVersion ch);
                          snd (recordVersion ch);
                          byte_of_N (len (encodeHandshake ch) / 256);
                          byte_of_N (len (encodeHandshake ch))]) st) at 1.
  match goal with
  | |- context [io.mkTee (?a :: ?b :: ?c :: ?d :: ?e :: ?hs ++ rest) []] =>
      change (a :: b :: c :: d :: e :: hs ++ rest)
        with ([a; b; c; d; e] ++ (hs ++ rest))
  end.
  rewrite ReadFull_exact.
  change (byte_eqb contentTypeHandshake contentTypeHandshake) with true.
  cbv iota.
  rewrite be16_enc by exact Hhs.
  unfold len at 1. rewrite Nat2N.id, ReadFull_exact.
  unfold io.lift.
  rewrite (parseHandshake_encodeHandshake ch host Hwf Hsni).
  reflexivity.
Qed.

Lemma extractSNI_tee (st : io.Tee) :
  exists bs, io.source st = bs ++ io.source (snd (extractSNI st))
             /\ io.sink (snd (extractSNI st)) = io.sink st ++ bs.
Proof.
  unfold extractSNI, io.bind.
  destruct (ReadFull_tee 5 st) as (bs1 & Hs1 & Hk1).
  destruct (io.ReadFull 5 st) as [[header|e] st1]; cbn [snd] in *;
    [|exists bs1; auto].
  assert (Hstop : forall (r : result string),
             exists bs, io.source st = bs ++ io.source (snd (r, st1))
                        /\ io.sink (snd (r, st1)) = io.sink st ++ bs)
    by (intro; exists bs1; auto).
  destruct header as [|typ [|v1 [|v0 [|hi [|lo [|x header]]]]]];
    try apply Hstop.
  unfold io.fail, io.lift.
  destruct (byte_eqb typ contentTypeHandshake); [|apply Hstop].
  destruct (ReadFull_tee (N.to_nat (be16 hi lo)) st1) as (bs2 & Hs2 & Hk2).
  destruct (io.ReadFull (N.to_nat (be16 hi lo)) st1) as [[body|e] st2];
    cbn [snd] in *; exists (bs1 ++ bs2);
    rewrite Hs1, Hs2, Hk2, Hk1, !app_assoc; auto.
Qed.
End Wire.

(** The buffer of the tee holds the bytes consumed from the client,
    whatever the client sent and whether or not the extraction failed. *)
Lemma sniff_buffer_consumed (bytes : list byte) :
  io.sink (snd (sni.extractSNI (io.mkTee bytes [])))
  = io.consumed bytes (snd (sni.extractSNI (io.mkTee bytes []))).
Proof.
  destruct (extractSNI_tee (io.mkTee bytes [])) as (bs & Hs & Hk).
  cbn [io.source io.sink app] in *. rewrite Hk. unfold io.consumed.
  set (left := io.source (snd (sni.extractSNI (io.mkTee bytes [])))) in *.
  assert (Hl : length bytes = (length bs + length left)%nat)
    by (rewrite <- length_app; f_equal; exact Hs).
  replace (length bytes - length left)%nat with (length bs) by lia.
  rewrite Hs. symmetry. apply firstn_length_app.
Qed.

(** C3.  On the wire form of a well-formed ClientHello that carries a
    [server_name] extension, whatever follows it on the connection, the
    extractor returns exactly the host name of that extension; the tee
    buffer then holds exactly the record, which is exactly what was
    consumed from the client, and the bytes after the record are left
    unread. *)
Theorem extractSNI_returns_hostname_and_tees_consumed_bytes :
  forall (ch : sni.ClientHello) (host rest : list byte),
    sni.wellFormed ch ->
    sni.carriesServerName ch host ->
    let run := sni.extractSNI (io.mkTee (sni.encodeRecord ch ++ rest) []) in
    fst run = Ok (string_of_list_byte host)
    /\ io.sink (snd run) = io.consumed (sni.encodeRecord ch ++ rest) (snd run)
    /\ io.sink (snd run) = sni.encodeRecord ch
    /\ io.source (snd run) = rest.
Proof.
  intros ch host rest Hwf Hsni run.
  pose proof (sniff_buffer_consumed (sni.encodeRecord ch ++ rest)) as Htee.
  fold run in Htee. subst run.
  rewrite (extractSNI_record ch host rest Hwf Hsni) in *.
  cbn [fst snd io.sink io.source] in *. auto.
Qed.

Lemma extractSNI_sample_witness :
  let run := sni.extractSNI
               (io.mkTee (sni.encodeRecord samples.hello ++ samples.laterBytes) []) in
  fst run = Ok "svc.example.com"%string
  /\ io.sink (snd run)
     = io.consumed (sni.encodeRecord samples.hello ++ samples.laterBytes) (snd run)
  /\ io.sink (snd run) = sni.encodeRecord samples.hello
  /\ io.source (snd run) = samples.laterBytes.
Proof.
  apply (extractSNI_returns_hostname_and_tees_consumed_bytes
           samples.hello samples.host samples.laterBytes).
  - unfold sni.wellFormed.
    repeat split; try (vm_compute; reflexivity).
    repeat constructor.
  - exists [samples.groupsExt],
           [samples.otherName; sni.mkServerName sni.nameTypeHostName samples.host],
           [samples.formatsExt], [samples.otherName], [].
    repeat split; try (vm_compute; reflexivity); repeat constructor.
Defined.

(** ** Alert emitter *)

(** The three traces [alert] can leave. *)
Lemma alert_cases (env : Env) (desc : byte) :
  alert env desc =
  match alertDeadlineErr env, alertWriteErr env with
  | Some err, _ => [SetWriteDeadline In3Seconds; Log (LogAlertDeadline err)]
  | None, Some err =>
      [SetWriteDeadline In3Seconds; Write Client (alertMessage desc);
       Log (LogAlertWrite err)]
  | None, None =>
      [SetWriteDeadline In3Seconds; Write Client (alertMessage desc)]
  end.
Proof.
  unfold alert. destruct (alertDeadlineErr env), (alertWriteErr env); reflexivity.
Qed.

Lemma written_app (s : Sock) (a b : list event) :
  written s (a ++ b) = written s a ++ written s b.
Proof.
  induction a as [|e a IH]; [reflexivity|].
  destruct e; cbn [app written]; try exact IH.
  destruct s, s0; rewrite ?IH, ?app_assoc; reflexivity.
Qed.

Lemma alert_written_upstream (env : Env) (desc : byte) :
  written Upstream (alert env desc) = [].
Proof.
  rewrite alert_cases.
  destruct (alertDeadlineErr env), (alertWriteErr env); reflexivity.
Qed.

Lemma alert_touchesUpstream (env : Env) (desc : byte) :
  existsb touchesUpstream (alert env desc) = false.
Proof.
  rewrite alert_cases.
  destruct (alertDeadlineErr env), (alertWriteErr env); reflexivity.
Qed.

Lemma alert_isGo (env : Env) (desc : byte) :
  existsb isGo (alert env desc) = false.
Proof.
  rewrite alert_cases.
  destruct (alertDeadlineErr env), (alertWriteErr env); reflexivity.
Qed.

Lemma alert_dialedOk (env : Env) (desc : byte) :
  existsb dialedOk (alert env desc) = false.
Proof.
  rewrite alert_cases.
  destruct (alertDeadlineErr env), (alertWriteErr env); reflexivity.
Qed.

Lemma alert_owned (env : Env) (desc : byte) :
  filter (fun e => negb (ownedByAlert e)) (alert env desc) = [].
Proof.
  rewrite alert_cases.
  destruct (alertDeadlineErr env), (alertWriteErr env); reflexivity.
Qed.


Lemma run_app (s : Sockets) (a b : list event) :
  run s (a ++ b) = match run s a with Some s' => run s' b | None => None end.
Proof.
  revert s; induction a as [|e a IH]; intro s; [reflexivity|].
  cbn [app run]. destruct (step s e); [apply IH | reflexivity].
Qed.

Lemma run_alert (s : Sockets) (env : Env) (desc : byte) :
  clientOpen s = true -> run s (alert env desc) = Some s.
Proof.
  intro H. rewrite alert_cases.
  destruct (alertDeadlineErr env), (alertWriteErr env);
    cbn [run step]; rewrite ?H; reflexivity.
Qed.

Lemma run_WriteTo_Upstream (s : Sockets) (buf : list byte) :
  clientOpen s = true -> upstreamIsOpen s = true ->
  run s (WriteTo Upstream buf) = Some s.
Proof.
  intros Hc Hu. destruct buf; cbn [WriteTo run step]; rewrite ?Hc, ?Hu; reflexivity.
Qed.

Lemma WriteTo_written (s : Sock) (buf : list byte) :
  written s (WriteTo s buf) = buf.
Proof.
  destruct buf; [reflexivity|].
  destruct s; cbn [WriteTo written]; apply app_nil_r.
Qed.

Lemma WriteTo_isGo (s : Sock) (buf : list byte) :
  existsb isGo (WriteTo s buf) = false.
Proof. destruct buf; reflexivity. Qed.

Lemma WriteTo_dialedOk (s : Sock) (buf : list byte) :
  existsb dialedOk (WriteTo s buf) = false.
Proof. destruct buf; reflexivity. Qed.

Lemma WriteTo_owned (buf : list byte) :
  filter (fun e => negb (ownedByAlert e)) (WriteTo Upstream buf)
  = WriteTo Upstream buf.
Proof. destruct buf; reflexivity. Qed.

(** One case of [dispatchConn] per outcome of each operation, in the order
    the operations are made. *)
Ltac dispatch_step p env :=
  match goal with
  | |- context [match setReadDeadlineErr env with _ => _ end] =>
      destruct (setReadDeadlineErr env) as [?e|] eqn:?Hrd
  | |- context [sniff env] =>
      destruct (sniff env) as [[?sni|?e] ?tee] eqn:?Hsniff
  | |- context [match clearReadDeadlineErr env with _ => _ end] =>
      destruct (clearReadDeadlineErr env) as [?e|] eqn:?Hclr
  | |- context [Match p ?sni] =>
      destruct (Match p sni) as [?route|?e] eqn:?Hmatch
  | |- context [clientAllowed ?route (remoteIP env)] =>
      destruct (clientAllowed route (remoteIP env)) eqn:?Hacl
  | |- context [match dialErr env with _ => _ end] =>
      destruct (dialErr env) as [?e|] eqn:?Hdial
  | |- context [config.ProxyMode_eqb ?a ?b] =>
      destruct (config.ProxyMode_eqb a b) eqn:?Hmode
  | |- context [match proxyHeaderErr env with _ => _ end] =>
      destruct (proxyHeaderErr env) as [?e|] eqn:?Hhdr
  | |- context [WriteToErr ?buf (replayErr env)] =>
      destruct (WriteToErr buf (replayErr env)) as [?e|] eqn:?Hreplay
  end; cbn [negb].

Ltac dispatch_cases p env :=
  unfold dispatchConn, dispatchBody, dialAndServe, withUpstream, replayAndRelay;
  repeat dispatch_step p env.

Ltac run_trace :=
  repeat (cbn [app run step clientOpen upstreamState upstreamIsOpen accepted andb]
          || rewrite run_app
          || (rewrite run_alert by reflexivity)
          || (rewrite run_WriteTo_Upstream by reflexivity)).

Ltac observe_trace :=
  repeat (cbn [app existsb isGo dialedOk touchesUpstream orb written filter
               ownedByAlert negb]
          || rewrite existsb_app
          || rewrite written_app
          || rewrite filter_app
          || rewrite alert_isGo
          || rewrite alert_dialedOk
          || rewrite alert_touchesUpstream
          || rewrite alert_written_upstream
          || rewrite alert_owned
          || rewrite WriteTo_isGo
          || rewrite WriteTo_dialedOk
          || rewrite WriteTo_owned
          || rewrite WriteTo_written
          || rewrite orb_false_r
          || rewrite orb_true_r).

(** C8.  [dispatchConn] has no result, so no error reaches its caller;
    whatever each operation answers, its trace ends with the close of the
    client socket, no socket is used after it was closed or closed twice,
    the client socket is closed at the end, and the upstream socket is
    closed at the end exactly when the dial succeeded (and otherwise does
    not exist).  That covers every abort: read deadline, parse, clear
    deadline, no route, denial, dial, proxy header, replay. *)
Theorem dispatchConn_releases_sockets :
  forall p env,
    exists body final,
      dispatchConn p env = body ++ [Close Client]
      /\ run accepted (dispatchConn p env) = Some final
      /\ clientOpen final = false
      /\ upstreamState final =
         if existsb dialedOk (dispatchConn p env) then UpstreamClosed else NotDialed.
Proof.
  intros p env. exists (dispatchBody p env).
  assert (H : exists final,
             run accepted (dispatchConn p env) = Some final
             /\ clientOpen final = false
             /\ upstreamState final =
                if existsb dialedOk (dispatchConn p env)
                then UpstreamClosed else NotDialed).
  { dispatch_cases p env; run_trace; observe_trace;
      eexists; repeat split; reflexivity. }
  destruct H as (final & H). exists final. split; [reflexivity | exact H].
Qed.

Lemma sniff_tee (env : Env) (found : result string) (tee : io.Tee) :
  sniff env = (found, tee) ->
  io.consumed (clientBytes env) tee = io.sink tee.
Proof.
  intro H. pose proof (sniff_buffer_consumed (clientBytes env)) as Hc.
  unfold sniff in H. rewrite H in Hc. symmetry. exact Hc.
Qed.

(** Nothing on the upstream side happens unless every step up to the
    authorization went through and the access controller admitted the
    client. *)
Lemma upstream_only_when_allowed (p : Proxy) (env : Env) :
  existsb touchesUpstream (dispatchConn p env) = true ->
  exists sni tee route,
    sniff env = (Ok sni, tee)
    /\ Match p sni = Ok route
    /\ clientAllowed route (remoteIP env) = true.
Proof.
  dispatch_cases p env; observe_trace; try discriminate;
    intros _; do 3 eexists; repeat split; eassumption.
Qed.




Lemma In_isGo (t : Task) (tr : list event) :
  In (Go t) tr -> existsb isGo tr = true.
Proof.
  intro H. apply existsb_exists. exists (Go t). split; [exact H | reflexivity].
Qed.

Lemma alert_upstreamWriteOf (buf : list byte) (env : Env) (desc : byte) :
  Forall (upstreamWriteOf buf) (alert env desc).
Proof.
  rewrite alert_cases.
  destruct (alertDeadlineErr env), (alertWriteErr env);
    repeat constructor.
Qed.

Lemma WriteTo_upstreamWriteOf (buf : list byte) :
  Forall (upstreamWriteOf buf) (WriteTo Upstream buf).
Proof. destruct buf; repeat constructor. Qed.

Ltac all_events :=
  repeat (apply Forall_app; split);
  repeat first [ apply alert_upstreamWriteOf
               | apply WriteTo_upstreamWriteOf
               | apply Forall_nil
               | apply Forall_cons; [exact I|]
               | apply Forall_app; split ].

(** The dispatcher writes nothing but the sniffed buffer upstream. *)
Lemma upstream_writes_are_the_buffer (p : Proxy) (env : Env) :
  Forall (upstreamWriteOf (io.sink (snd (sniff env)))) (dispatchConn p env).
Proof.
  dispatch_cases p env; cbn [snd]; all_events.
Qed.

(** A copy task is started only after every earlier step succeeded. *)
Lemma relay_only_after_replay (p : Proxy) (env : Env) :
  existsb isGo (dispatchConn p env) = true ->
  exists sni tee route,
    setReadDeadlineErr env = None
    /\ sniff env = (Ok sni, tee)
    /\ clearReadDeadlineErr env = None
    /\ Match p sni = Ok route
    /\ clientAllowed route (remoteIP env) = true
    /\ dialErr env = None
    /\ (config.ProxyMode_eqb (config.SendProxy route) config.ProxyNone = false ->
        proxyHeaderErr env = None)
    /\ WriteToErr (io.sink tee) (replayErr env) = None.
Proof.
  dispatch_cases p env; observe_trace; try discriminate;
    intros _; do 3 eexists; repeat split; try eassumption; congruence.
Qed.

(** The events before the first copy task is started. *)
Lemma untilRelay_app_Go (before after : list event) (t : Task) :
  existsb isGo before = false ->
  untilRelay (before ++ Go t :: after) = before.
Proof.
  induction before as [|e before IH]; intro H; [reflexivity|].
  cbn [existsb] in H. apply orb_false_iff in H as [He Hb].
  cbn [app untilRelay]. rewrite He, (IH Hb). reflexivity.
Qed.

Lemma untilRelay_no_Go (tr : list event) :
  existsb isGo tr = false -> untilRelay tr = tr.
Proof.
  induction tr as [|e tr IH]; intro H; [reflexivity|].
  cbn [existsb] in H. apply orb_false_iff in H as [He Hb].
  cbn [untilRelay]. rewrite He, (IH Hb). reflexivity.
Qed.

(** C6.  The replay of line 125 is the one write on the upstream socket
    that a trace records (the PROXY header is written by the encoder, the
    relayed traffic by the copy tasks), and on every connection it is a
    write of the tee buffer filled while sniffing, which holds exactly
    the bytes consumed from the client.  Whenever a copy task of the
    relay is started, the replay has succeeded, and the trace of the
    connection is: the steps up to the dial (and the PROXY-protocol
    encoder when the route asks for it), among them the sniffing; then
    the replay, which writes exactly that buffer on the upstream socket;
    then the log line, the two copy tasks, the wait and the two closes.
    So when the first copy task starts, the replay is complete and the
    bytes written on the upstream socket are exactly the buffer. *)
Theorem dispatchConn_replays_tee_buffer_before_relay :
  forall p env,
    (forall bs, In (Write Upstream bs) (dispatchConn p env) ->
                bs = io.sink (snd (sniff env))
                /\ bs = io.consumed (clientBytes env) (snd (sniff env)))
    /\ (forall t,
           In (Go t) (dispatchConn p env) ->
           exists sni tee route before,
             sniff env = (Ok sni, tee)
             /\ io.sink tee = io.consumed (clientBytes env) tee
             /\ WriteToErr (io.sink tee) (replayErr env) = None
             /\ dispatchConn p env =
                  before ++ WriteTo Upstream (io.sink tee)
                  ++ [Log (LogRouting (remoteAddr env) sni (config.Backend route));
                      Go CopyClientToUpstream; Go CopyUpstreamToClient; Wait;
                      Close Upstream; Close Client]
             /\ written Upstream (WriteTo Upstream (io.sink tee)) = io.sink tee
             /\ In (Read (io.sink tee)) before
             /\ written Upstream before = []
             /\ existsb isGo before = false
             /\ untilRelay (dispatchConn p env)
                = before ++ WriteTo Upstream (io.sink tee)
                  ++ [Log (LogRouting (remoteAddr env) sni (config.Backend route))]
             /\ written Upstream (untilRelay (dispatchConn p env)) = io.sink tee).
Proof.
  intros p env. split.
  { intros bs Hin.
    pose proof (upstream_writes_are_the_buffer p env) as Hall.
    rewrite Forall_forall in Hall. specialize (Hall _ Hin). cbn in Hall.
    split; [exact Hall|]. rewrite Hall. symmetry.
    apply (sniff_tee env (fst (sniff env))). apply surjective_pairing. }
  intros t Hgo. apply In_isGo in Hgo.
  destruct (relay_only_after_replay p env Hgo)
    as (sni & tee & route & Hrd & Hsniff & Hclr & Hmatch & Hacl & Hdial
        & Hhdr & Hreplay).
  pose proof (sniff_tee env _ _ Hsniff) as Htee.
  exists sni, tee, route.
  exists ([SetReadDeadline In3Seconds; Read (io.sink tee);
           SetReadDeadline NoDeadline; SetKeepAlive true; SetKeepAlivePeriod;
           Dial (config.Backend route) None]
          ++ if config.ProxyMode_eqb (config.SendProxy route) config.ProxyNone
             then [] else [ProxyHeader (config.SendProxy route)]).
  assert (Htrace : dispatchConn p env =
           ([SetReadDeadline In3Seconds; Read (io.sink tee);
             SetReadDeadline NoDeadline; SetKeepAlive true; SetKeepAlivePeriod;
             Dial (config.Backend route) None]
            ++ if config.ProxyMode_eqb (config.SendProxy route) config.ProxyNone
               then [] else [ProxyHeader (config.SendProxy route)])
           ++ WriteTo Upstream (io.sink tee)
           ++ [Log (LogRouting (remoteAddr env) sni (config.Backend route));
               Go CopyClientToUpstream; Go CopyUpstreamToClient; Wait;
               Close Upstream; Close Client]).
  { unfold dispatchConn, dispatchBody, dialAndServe, withUpstream, replayAndRelay.
    rewrite Hrd, Hsniff, Hclr, Hmatch, Hacl, Hdial, Hreplay, Htee.
    destruct (config.ProxyMode_eqb (config.SendProxy route) config.ProxyNone);
      [| rewrite Hhdr by reflexivity];
      cbn [negb app]; rewrite <- ?app_assoc; reflexivity. }
  split; [exact Hsniff|]. split; [symmetry; exact Htee|].
  split; [exact Hreplay|].
  split; [exact Htrace|]. split; [apply WriteTo_written|].
  split; [cbn; auto|].
  assert (Hbefore : forall mode : list event,
             (mode = [] \/ mode = [ProxyHeader (config.SendProxy route)]) ->
             written Upstream
               ([SetReadDeadline In3Seconds; Read (io.sink tee);
                 SetReadDeadline NoDeadline; SetKeepAlive true;
                 SetKeepAlivePeriod; Dial (config.Backend route) None] ++ mode) = []
             /\ existsb isGo
                  ([SetReadDeadline In3Seconds; Read (io.sink tee);
                    SetReadDeadline NoDeadline; SetKeepAlive true;
                    SetKeepAlivePeriod; Dial (config.Backend route) None] ++ mode)
                = false)
    by (intros mode [-> | ->]; split; reflexivity).
  destruct (Hbefore (if config.ProxyMode_eqb (config.SendProxy route) config.ProxyNone
                     then [] else [ProxyHeader (config.SendProxy route)]))
    as [Hw Hg];
    [destruct (config.ProxyMode_eqb _ _); auto|].
  split; [exact Hw|]. split; [exact Hg|].
  assert (Huntil : untilRelay (dispatchConn p env)
                   = ([SetReadDeadline In3Seconds; Read (io.sink tee);
                       SetReadDeadline NoDeadline; SetKeepAlive true;
                       SetKeepAlivePeriod; Dial (config.Backend route) None]
                      ++ if config.ProxyMode_eqb (config.SendProxy route)
                                                 config.ProxyNone
                         then [] else [ProxyHeader (config.SendProxy route)])
                     ++ WriteTo Upstream (io.sink tee)
                     ++ [Log (LogRouting (remoteAddr env) sni
                                         (config.Backend route))]).
  { rewrite Htrace.
    change [Log (LogRouting (remoteAddr env) sni (config.Backend route));
            Go CopyClientToUpstream; Go CopyUpstreamToClient; Wait;
            Close Upstream; Close Client]
      with ([Log (LogRouting (remoteAddr env) sni (config.Backend route))]
            ++ Go CopyClientToUpstream
               :: [Go CopyUpstreamToClient; Wait; Close Upstream; Close Client]).
    rewrite !app_assoc. apply untilRelay_app_Go.
    rewrite existsb_app, existsb_app, Hg, WriteTo_isGo. reflexivity. }
  split; [exact Huntil|].
  rewrite Huntil, written_app, Hw, written_app, WriteTo_written.
  cbn [written app]. apply app_nil_r.
Qed.

Lemma dispatchConn_replays_witness :
  (In (Write Upstream (sni.encodeRecord samples.hello))
      (dispatchConn samples.svcProxy samples.env)
   /\ In (Go CopyUpstreamToClient) (dispatchConn samples.svcProxy samples.env))
  /\ sni.encodeRecord samples.hello = io.sink (snd (sniff samples.env))
  /\ sni.encodeRecord samples.hello
     = io.consumed (clientBytes samples.env) (snd (sniff samples.env))
  /\ exists sni tee route before,
      sniff samples.env = (Ok sni, tee)
      /\ io.sink tee = io.consumed (clientBytes samples.env) tee
      /\ WriteToErr (io.sink tee) (replayErr samples.env) = None
      /\ dispatchConn samples.svcProxy samples.env =
           before ++ WriteTo Upstream (io.sink tee)
           ++ [Log (LogRouting (remoteAddr samples.env) sni (config.Backend route));
               Go CopyClientToUpstream; Go CopyUpstreamToClient; Wait;
               Close Upstream; Close Client]
      /\ written Upstream (WriteTo Upstream (io.sink tee)) = io.sink tee
      /\ In (Read (io.sink tee)) before
      /\ written Upstream before = []
      /\ existsb isGo before = false
      /\ untilRelay (dispatchConn samples.svcProxy samples.env)
         = before ++ WriteTo Upstream (io.sink tee)
           ++ [Log (LogRouting (remoteAddr samples.env) sni (config.Backend route))]
      /\ written Upstream (untilRelay (dispatchConn samples.svcProxy samples.env))
         = io.sink tee.
Proof.
  assert (Hw : In (Write Upstream (sni.encodeRecord samples.hello))
                  (dispatchConn samples.svcProxy samples.env))
    by (vm_compute; do 6 right; left; reflexivity).
  assert (Hg : In (Go CopyUpstreamToClient)
                  (dispatchConn samples.svcProxy samples.env))
    by (vm_compute; do 9 right; left; reflexivity).
  destruct (dispatchConn_replays_tee_buffer_before_relay
              samples.svcProxy samples.env) as [Hwrites Hrelay].
  split; [split; assumption|].
  destruct (Hwrites _ Hw) as [H1 H2].
  split; [exact H1|]. split; [exact H2|].
  exact (Hrelay _ Hg).
Defined.

Lemma sniff_withAlertOutcome (env : Env) (d w : option error) :
  sniff (withAlertOutcome env d w) = sniff env.
Proof. reflexivity. Qed.

(** How the alert went does not change what its caller does. *)
Lemma dispatchConn_ignores_alert_outcome (p : Proxy) (env : Env)
      (d w : option error) :
  filter (fun e => negb (ownedByAlert e)) (dispatchConn p (withAlertOutcome env d w))
  = filter (fun e => negb (ownedByAlert e)) (dispatchConn p env).
Proof.
  unfold dispatchConn, dispatchBody, dialAndServe, withUpstream, replayAndRelay.
  rewrite sniff_withAlertOutcome.
  cbn [withAlertOutcome setReadDeadlineErr clientBytes clearReadDeadlineErr
       remoteIP remoteAddr dialErr proxyHeaderErr replayErr].
  repeat dispatch_step p env; observe_trace; reflexivity.
Qed.

(** C7 as worded does not hold: when the write deadline cannot be set,
    [alert] logs that and returns; nothing is written to the client. *)
Lemma alert_without_write_deadline_writes_nothing :
  alert samples.envNoWriteDeadline tlsAccessDenied
  = [SetWriteDeadline In3Seconds;
     Log (LogAlertDeadline "use of closed network connection"%string)]
  /\ written Client (alert samples.envNoWriteDeadline tlsAccessDenied) = [].
Proof. split; reflexivity. Qed.

(** C7, amended.  For every description code the message [alert] crafts
    is the 7-byte record 0x15 0x03 0x00 0x00 0x02 0x02 desc.  Once the
    write deadline is set, [alert] makes one write, of exactly that
    record, on the client socket, and logs the failure of that write if it
    fails; when the deadline cannot be set it logs that and writes
    nothing.  [alert] never writes on the upstream socket, and its caller
    goes on the same way whatever the two operations of [alert] answer:
    no failure is escalated. *)
Theorem alert_writes_fatal_record_once_deadline_is_set :
  forall env desc,
    alertMessage desc = [x15; x03; x00; x00; x02; x02; desc]
    /\ Byte.to_N x15 = 21%N
    /\ (alertDeadlineErr env = None ->
        alert env desc
        = [SetWriteDeadline In3Seconds;
           Write Client [x15; x03; x00; x00; x02; x02; desc]]
          ++ match alertWriteErr env with
             | Some err => [Log (LogAlertWrite err)]
             | None => []
             end
        /\ written Client (alert env desc)
           = [x15; x03; x00; x00; x02; x02; desc])
    /\ (forall err, alertDeadlineErr env = Some err ->
                    alert env desc
                    = [SetWriteDeadline In3Seconds; Log (LogAlertDeadline err)])
    /\ written Upstream (alert env desc) = []
    /\ (forall p deadline write,
           filter (fun e => negb (ownedByAlert e))
                  (dispatchConn p (withAlertOutcome env deadline write))
           = filter (fun e => negb (ownedByAlert e)) (dispatchConn p env)).
Proof.
  intros env desc. split; [reflexivity|]. split; [reflexivity|].
  split; [|split; [|split]].
  - intro Hd. rewrite alert_cases, Hd.
    destruct (alertWriteErr env); split; reflexivity.
  - intros err Hd. rewrite alert_cases, Hd. reflexivity.
  - apply alert_written_upstream.
  - intros p d w. apply dispatchConn_ignores_alert_outcome.
Qed.

(** ** Listener *)

Lemma acceptLoop_until_error (conns : list Env) (e : error)
      (later : list Accepted) :
  acceptLoop (map AcceptOk conns ++ AcceptErr e :: later)
  = (flat_map (fun conn => [Accept; GoDispatch conn]) conns ++ [Accept],
     Returned e).
Proof.
  induction conns as [|conn conns IH]; [reflexivity|].
  cbn [map app acceptLoop flat_map]. rewrite IH. reflexivity.
Qed.

Lemma acceptLoop_no_error (conns : list Env) :
  acceptLoop (map AcceptOk conns)
  = (flat_map (fun conn => [Accept; GoDispatch conn]) conns ++ [Accept],
     Serving).
Proof.
  induction conns as [|conn conns IH]; [reflexivity|].
  cbn [map app acceptLoop flat_map]. rewrite IH. reflexivity.
Qed.

Lemma acceptCalls_rounds (conns : list Env) (tl : list ServeEvent) :
  acceptCalls (flat_map (fun conn => [Accept; GoDispatch conn]) conns ++ tl)
  = (length conns + acceptCalls tl)%nat.
Proof.
  unfold acceptCalls.
  induction conns as [|conn conns IH]; [reflexivity|].
  cbn [flat_map app filter length]. rewrite IH. reflexivity.
Qed.

Lemma dispatched_rounds (conns : list Env) (tl : list ServeEvent) :
  dispatched (flat_map (fun conn => [Accept; GoDispatch conn]) conns ++ tl)
  = conns ++ dispatched tl.
Proof.
  induction conns as [|conn conns IH]; [reflexivity|].
  cbn [flat_map app dispatched]. rewrite IH. reflexivity.
Qed.

(** C9.  When [Accept] fails, [ListenAndServe] returns that very error:
    after [conns] accepted connections and a failed accept it has called
    [Accept] once per connection and once more, has started one
    dispatcher per connection, closes the listener and returns the
    error, whatever [Accept] would have answered later; as long as no
    accept fails it keeps serving; and a failure to listen is returned
    as well. *)
Theorem ListenAndServe_returns_first_accept_error :
  forall p bind conns e later,
    let tr := Listen bind
                :: flat_map (fun conn => [Accept; GoDispatch conn]) conns
                ++ [Accept; CloseListener] in
    ListenAndServe p bind None (map AcceptOk conns ++ AcceptErr e :: later)
    = (tr, Returned e)
    /\ acceptCalls tr = S (length conns)
    /\ dispatched tr = conns
    /\ snd (ListenAndServe p bind None (map AcceptOk conns)) = Serving
    /\ ListenAndServe p bind (Some e) (map AcceptOk conns ++ later)
       = ([Listen bind], Returned e).
Proof.
  intros p bind conns e later tr. subst tr.
  unfold ListenAndServe.
  rewrite acceptLoop_until_error, acceptLoop_no_error.
  repeat split.
  - rewrite <- app_assoc. reflexivity.
  - change (acceptCalls (Listen bind :: ?l)) with (acceptCalls l).
    rewrite acceptCalls_rounds. cbn. lia.
  - change (dispatched (Listen bind :: ?l)) with (dispatched l).
    rewrite dispatched_rounds. cbn. apply app_nil_r.
Qed.

(* ===================================================================== *)
(** * Part III.  Further properties of the same code                      *)
(* ===================================================================== *)

(** ** More on the access controller *)

Lemma leadingOnes_nonneg (rounds : nat) :
  forall v n, 0 <= n -> 0 <= fst (net.leadingOnes rounds v n).
Proof.
  induction rounds as [|rounds IH]; intros v n Hn; cbn [net.leadingOnes].
  - exact Hn.
  - destruct (N.testbit v 7); [apply IH; lia | exact Hn].
Qed.

Lemma simpleMaskLength_from_lower (mask : net.IPMask) :
  forall n, 0 <= n -> -1 <= net.simpleMaskLength_from mask n.
Proof.
  induction mask as [|v rest IH]; intros n Hn; cbn [net.simpleMaskLength_from].
  - lia.
  - destruct (byte_eqb v xff); [apply IH; lia|].
    pose proof (leadingOnes_nonneg 8 (Byte.to_N v) n Hn) as Hl.
    destruct (net.leadingOnes 8 (Byte.to_N v) n) as [n' v']. cbn [fst] in Hl.
    destruct (negb (N.eqb v' 0)); [lia|].
    destruct (net.isZeros rest); lia.
Qed.

(** A prefix length is never negative. *)
Lemma maskSize_nonneg (subnet : net.IPNet) : 0 <= maskSize subnet.
Proof.
  unfold maskSize, net.Size, net.simpleMaskLength.
  pose proof (simpleMaskLength_from_lower (net.ipnet_Mask subnet) 0 ltac:(lia)) as H.
  destruct (Z.eqb_spec (net.simpleMaskLength_from (net.ipnet_Mask subnet) 0) (-1));
    cbn [fst]; lia.
Qed.

Lemma clientAllowed_policy (route : config.Route) (ip : net.IP) :
  clientAllowed route ip =
  (Nat.eqb (length (config.Allow route)) 0 && Nat.eqb (length (config.Deny route)) 0)
  || negb (denyWins (config.Deny route) ip (bestAllowPrefix (config.Allow route) ip)).
Proof.
  rewrite clientAllowed_accessPolicy. unfold accessPolicy.
  destruct (config.Allow route), (config.Deny route); reflexivity.
Qed.

Lemma bestAllowPrefix_Permutation (ip : net.IP) (a b : list net.IPNet) :
  Permutation a b -> bestAllowPrefix a ip = bestAllowPrefix b ip.
Proof.
  induction 1 as [|x a b _ IH|x y a|a b c _ IH1 _ IH2].
  - reflexivity.
  - rewrite !bestAllowPrefix_cons, IH. reflexivity.
  - rewrite !bestAllowPrefix_cons.
    destruct (net.Contains x ip), (net.Contains y ip); lia.
  - congruence.
Qed.

Lemma denyWins_Permutation (ip : net.IP) (best : Z) (a b : list net.IPNet) :
  Permutation a b -> denyWins a ip best = denyWins b ip best.
Proof.
  unfold denyWins.
  induction 1 as [|x a b _ IH|x y a|a b c _ IH1 _ IH2]; cbn [existsb].
  - reflexivity.
  - rewrite IH. reflexivity.
  - rewrite !orb_assoc.
    rewrite (orb_comm (net.Contains y ip && (best <=? maskSize y))). reflexivity.
  - congruence.
Qed.

(** X1.  The order of the subnets in the allow list and in the deny list
    of a route does not matter: a route whose lists are permuted admits
    exactly the same addresses. *)
Theorem clientAllowed_rule_order_is_irrelevant :
  forall backend domains mode allow allow' deny deny' ip,
    Permutation allow allow' ->
    Permutation deny deny' ->
    clientAllowed (config.mkRoute domains backend mode allow deny) ip
    = clientAllowed (config.mkRoute domains backend mode allow' deny') ip.
Proof.
  intros backend domains mode allow allow' deny deny' ip Ha Hd.
  rewrite !clientAllowed_policy. cbn [config.Allow config.Deny].
  rewrite (Permutation_length Ha), (Permutation_length Hd).
  rewrite (bestAllowPrefix_Permutation ip _ _ Ha).
  rewrite (denyWins_Permutation ip _ _ _ Hd). reflexivity.
Qed.

Lemma denyWins_mono (deny : list net.IPNet) (ip : net.IP) (lo hi : Z) :
  lo <= hi -> denyWins deny ip hi = true -> denyWins deny ip lo = true.
Proof.
  unfold denyWins. intros Hle H.
  apply existsb_exists in H as (s & Hin & Hs).
  apply existsb_exists. exists s. split; [exact Hin|].
  apply andb_true_iff in Hs as [Hc Hb]. rewrite Hc. cbn.
  apply Z.leb_le in Hb. apply Z.leb_le. lia.
Qed.

(** X2.  More rules act in one direction only: adding a subnet to the
    allow list never takes away an access that was granted, and a client
    admitted with one more deny subnet was admitted without it. *)
Theorem clientAllowed_more_rules_are_monotone :
  forall backend domains mode allow deny subnet ip,
    (clientAllowed (config.mkRoute domains backend mode allow deny) ip = true ->
     clientAllowed (config.mkRoute domains backend mode (subnet :: allow) deny) ip
     = true)
    /\ (clientAllowed (config.mkRoute domains backend mode allow (subnet :: deny)) ip
        = true ->
        clientAllowed (config.mkRoute domains backend mode allow deny) ip = true).
Proof.
  intros backend domains mode allow deny subnet ip.
  rewrite !clientAllowed_policy. cbn [config.Allow config.Deny length Nat.eqb andb orb].
  split.
  - intro H. apply orb_true_iff in H as [H|H].
    + apply andb_true_iff in H as [_ Hd].
      destruct deny; [reflexivity | discriminate].
    + apply negb_true_iff in H. apply negb_true_iff.
      destruct (denyWins deny ip (bestAllowPrefix (subnet :: allow) ip)) eqn:E;
        [|reflexivity].
      assert (Hle : bestAllowPrefix allow ip
                    <= bestAllowPrefix (subnet :: allow) ip)
        by (rewrite bestAllowPrefix_cons; destruct (net.Contains subnet ip); lia).
      pose proof (denyWins_mono _ _ _ _ Hle E). congruence.
  - intro H. rewrite andb_false_r in H. cbn [orb] in H.
    apply negb_true_iff in H. apply orb_true_iff. right.
    apply negb_true_iff. unfold denyWins in *. cbn [existsb] in H.
    apply orb_false_iff in H as [_ H]. exact H.
Qed.

Lemma denyWins_zero (deny : list net.IPNet) (ip : net.IP) :
  denyWins deny ip 0 = existsb (fun subnet => net.Contains subnet ip) deny.
Proof.
  unfold denyWins. induction deny as [|d deny IH]; cbn [existsb]; [reflexivity|].
  rewrite IH. pose proof (maskSize_nonneg d) as Hd.
  apply Z.leb_le in Hd. rewrite Hd, andb_true_r. reflexivity.
Qed.

(** X3.  A route with an empty allow list refuses exactly the addresses
    that some deny subnet contains, whatever the prefix length of that
    subnet (the baseline of the allow loop is 0 and no prefix length is
    negative). *)
Theorem clientAllowed_deny_list_alone_is_a_blocklist :
  forall route ip,
    config.Allow route = [] ->
    clientAllowed route ip
    = negb (existsb (fun subnet => net.Contains subnet ip) (config.Deny route)).
Proof.
  intros route ip Hallow.
  rewrite clientAllowed_policy, Hallow.
  change (bestAllowPrefix [] ip) with 0. rewrite denyWins_zero.
  destruct (config.Deny route); reflexivity.
Qed.

(** X5.  A client is refused exactly when some deny subnet contains its
    address and is at least as specific as every allow subnet that
    contains it; a refusal is always caused by a deny subnet. *)
Theorem clientAllowed_refusal_is_caused_by_a_deny_subnet :
  forall route ip,
    clientAllowed route ip = false <->
    exists d,
      In d (config.Deny route)
      /\ net.Contains d ip = true
      /\ forall a, In a (config.Allow route) -> net.Contains a ip = true ->
                   maskSize a <= maskSize d.
Proof.
  intros route ip. rewrite clientAllowed_policy. split.
  - intro H. apply orb_false_iff in H as [_ H]. apply negb_false_iff in H.
    unfold denyWins in H. apply existsb_exists in H as (d & Hin & Hd).
    apply andb_true_iff in Hd as [Hc Hb]. apply Z.leb_le in Hb.
    exists d. split; [exact Hin|]. split; [exact Hc|].
    intros a Ha Hca.
    assert (Hmax : forall allow, In a allow -> maskSize a <= bestAllowPrefix allow ip).
    { induction allow as [|s rest IH]; intros Hi; [destruct Hi|].
      rewrite bestAllowPrefix_cons. destruct Hi as [->|Hi].
      - rewrite Hca. lia.
      - specialize (IH Hi). destruct (net.Contains s ip); lia. }
    specialize (Hmax _ Ha). lia.
  - intros (d & Hin & Hc & Hall).
    assert (Hbest : bestAllowPrefix (config.Allow route) ip <= maskSize d).
    { induction (config.Allow route) as [|s rest IH].
      - apply maskSize_nonneg.
      - rewrite bestAllowPrefix_cons.
        assert (IH' : bestAllowPrefix rest ip <= maskSize d)
          by (apply IH; intros a Ha; apply Hall; right; exact Ha).
        destruct (net.Contains s ip) eqn:Hs; [|exact IH'].
        specialize (Hall s (or_introl eq_refl) Hs). lia. }
    apply orb_false_iff. split.
    + destruct (config.Deny route); [destruct Hin|].
      cbn [length Nat.eqb]. apply andb_false_r.
    + apply negb_false_iff. unfold denyWins. apply existsb_exists.
      exists d. split; [exact Hin|]. rewrite Hc. apply Z.leb_le. exact Hbest.
Qed.

(** The 16-byte form of an IPv4 address is treated as its 4-byte form. *)
Lemma Contains_v4_in_v6 (n : net.IPNet) (ip : net.IP) :
  length ip = 4%nat ->
  net.Contains n (net.v4InV6Prefix ++ ip) = net.Contains n ip.
Proof.
  intro Hlen.
  destruct ip as [|a [|b [|c [|d [|e ip]]]]]; try discriminate.
  reflexivity.
Qed.

Lemma allowLoop_ext (ip ip' : net.IP) :
  (forall n, net.Contains n ip = net.Contains n ip') ->
  forall allow cidr, allowLoop allow ip cidr = allowLoop allow ip' cidr.
Proof.
  intros H. induction allow as [|s rest IH]; intro cidr; cbn [allowLoop];
    [reflexivity|].
  rewrite H, !IH. reflexivity.
Qed.

Lemma denyLoop_ext (ip ip' : net.IP) :
  (forall n, net.Contains n ip = net.Contains n ip') ->
  forall deny cidr, denyLoop deny ip cidr = denyLoop deny ip' cidr.
Proof.
  intros H. induction deny as [|s rest IH]; intro cidr; cbn [denyLoop];
    [reflexivity|].
  rewrite H, !IH. reflexivity.
Qed.

(** X4.  The answer is the same for the 4-byte form of an IPv4 client
    address and for its 16-byte form (the prefix 0..0 ff ff followed by
    the four bytes), the form in which [net] often hands out the address
    of a TCP peer. *)
Theorem clientAllowed_same_for_both_forms_of_an_IPv4_address :
  forall route ip,
    length ip = 4%nat ->
    clientAllowed route (net.v4InV6Prefix ++ ip) = clientAllowed route ip.
Proof.
  intros route ip Hlen. unfold clientAllowed.
  rewrite (allowLoop_ext _ ip (fun n => Contains_v4_in_v6 n ip Hlen)).
  rewrite (denyLoop_ext _ ip (fun n => Contains_v4_in_v6 n ip Hlen)).
  reflexivity.
Qed.

(** ** More on the route matcher *)

Lemma matchRoutes_app (a b : list config.Route) (sni : string) :
  matchRoutes (a ++ b) sni =
  match matchRoutes a sni with
  | Some route => Some route
  | None => matchRoutes b sni
  end.
Proof.
  induction a as [|r a IH]; cbn [app matchRoutes]; [reflexivity|].
  destruct (matchDomains (config.Domains r) sni); [reflexivity | exact IH].
Qed.

(** X6.  Matching against a configuration made of two lists of routes is
    matching against the first list and, only when that fails, against
    the second: routes added at the end never change a match that
    existed. *)
Theorem Match_of_concatenated_configurations :
  forall first second sni,
    Match (mkProxy (config.mkConfig (first ++ second))) sni =
    match Match (mkProxy (config.mkConfig first)) sni with
    | Ok route => Ok route
    | Err _ => Match (mkProxy (config.mkConfig second)) sni
    end.
Proof.
  intros first second sni. unfold Match. cbn [Config config.Routes].
  rewrite matchRoutes_app.
  destruct (matchRoutes first sni); reflexivity.
Qed.

(** A starred pattern matches the empty string, which every hostname
    contains. *)
Lemma MatchString_Star (r : regexp.Regexp) (s : string) :
  regexp.MatchString (regexp.Star r) s = true.
Proof.
  unfold regexp.MatchString. rewrite searchFrom_eq.
  cbn [regexp.accept]. destruct (String.length s); reflexivity.
Qed.

(** X7.  A route that has a starred matcher (such as [.*]) accepts every
    hostname, so with such a route in the configuration [Match] never
    fails and never returns a route declared after it. *)
Theorem Match_never_passes_a_catch_all_route :
  forall before catchAll after r sni,
    In (regexp.Star r) (config.Domains catchAll) ->
    exists route,
      Match (mkProxy (config.mkConfig (before ++ catchAll :: after))) sni = Ok route
      /\ In route (before ++ [catchAll]).
Proof.
  intros before catchAll after r sni Hin.
  assert (Hc : matchDomains (config.Domains catchAll) sni = true).
  { apply matchDomains_true. exists (regexp.Star r).
    split; [exact Hin | apply MatchString_Star]. }
  unfold Match. cbn [Config config.Routes].
  rewrite matchRoutes_app. cbn [matchRoutes]. rewrite Hc.
  destruct (matchRoutes before sni) as [route|] eqn:Hb.
  - exists route. split; [reflexivity|].
    apply matchRoutes_In in Hb as [Hb _]. apply in_or_app. left. exact Hb.
  - exists catchAll. split; [reflexivity|].
    apply in_or_app. right. left. reflexivity.
Qed.

(** X8.  The route [Match] returns is one of the configured routes and
    has at least one matcher; a configuration whose routes have no
    matcher (the empty configuration among them) matches no hostname. *)
Theorem Match_returns_a_configured_route_with_a_matcher :
  forall p sni,
    (forall route, Match p sni = Ok route ->
                   In route (config.Routes (Config p))
                   /\ config.Domains route <> [])
    /\ ((forall route, In route (config.Routes (Config p)) ->
                       config.Domains route = []) ->
        Match p sni = Err (noRouteError sni)).
Proof.
  intros p sni. split.
  - intros route H. apply Match_Ok, matchRoutes_In in H as [Hin Hm].
    split; [exact Hin|]. intro Hnil. rewrite Hnil in Hm. discriminate.
  - intro Hall. apply Match_Err. split; [|reflexivity].
    apply matchRoutes_None, Forall_forall. intros route Hin.
    rewrite (Hall route Hin). reflexivity.
Qed.

Lemma append_inj_l (p a b : string) :
  (p ++ a)%string = (p ++ b)%string -> a = b.
Proof.
  induction p as [|c p IH]; cbn; intro H; [exact H|].
  injection H as H. exact (IH H).
Qed.

Lemma append_inj_r (c : ascii) :
  forall a b : string,
    (a ++ String c "")%string = (b ++ String c "")%string -> a = b.
Proof.
  induction a as [|x a IH]; intros [|y b] H; cbn in H.
  - reflexivity.
  - injection H as _ H. destruct b; discriminate.
  - injection H as _ H. destruct a; discriminate.
  - injection H as -> H. f_equal. exact (IH b H).
Qed.

(** X9.  The error of a failed [Match] determines the hostname: two
    failed lookups with the same error were lookups of the same
    hostname. *)
Theorem noRouteError_identifies_the_hostname :
  forall p p' sni sni' e,
    Match p sni = Err e ->
    Match p' sni' = Err e ->
    sni = sni'.
Proof.
  intros p p' sni sni' e H H'.
  apply Match_Err in H as [_ ->]. apply Match_Err in H' as [_ H'].
  unfold noRouteError in H'.
  apply append_inj_l in H'. apply append_inj_r in H'. exact H'.
Qed.

(** ** More on the dispatcher *)

Lemma clientWrites_app (a b : list event) :
  clientWrites (a ++ b) = clientWrites a ++ clientWrites b.
Proof.
  induction a as [|e a IH]; [reflexivity|].
  destruct e as [| | | | |[] bs| | | | | |]; cbn [app clientWrites];
    rewrite IH; reflexivity.
Qed.

Lemma dials_app (a b : list event) : dials (a ++ b) = dials a ++ dials b.
Proof.
  induction a as [|e a IH]; [reflexivity|].
  destruct e; cbn [app dials]; rewrite IH; reflexivity.
Qed.

Lemma proxyCalls_app (a b : list event) :
  proxyCalls (a ++ b) = proxyCalls a ++ proxyCalls b.
Proof.
  induction a as [|e a IH]; [reflexivity|].
  destruct e; cbn [app proxyCalls]; rewrite IH; reflexivity.
Qed.

Lemma dispatcherLogs_app (a b : list event) :
  dispatcherLogs (a ++ b) = dispatcherLogs a ++ dispatcherLogs b.
Proof.
  induction a as [|e a IH]; [reflexivity|].
  destruct e as [| | | | | |[]| | | | |]; cbn [app dispatcherLogs];
    rewrite IH; reflexivity.
Qed.

Lemma alert_clientWrites (env : Env) (desc : byte) :
  clientWrites (alert env desc) =
  match alertDeadlineErr env with
  | None => [alertMessage desc]
  | Some _ => []
  end.
Proof.
  rewrite alert_cases.
  destruct (alertDeadlineErr env), (alertWriteErr env); reflexivity.
Qed.

Lemma alert_dials (env : Env) (desc : byte) : dials (alert env desc) = [].
Proof.
  rewrite alert_cases.
  destruct (alertDeadlineErr env), (alertWriteErr env); reflexivity.
Qed.

Lemma alert_proxyCalls (env : Env) (desc : byte) :
  proxyCalls (alert env desc) = [].
Proof.
  rewrite alert_cases.
  destruct (alertDeadlineErr env), (alertWriteErr env); reflexivity.
Qed.

Lemma alert_dispatcherLogs (env : Env) (desc : byte) :
  dispatcherLogs (alert env desc) = [].
Proof.
  rewrite alert_cases.
  destruct (alertDeadlineErr env), (alertWriteErr env); reflexivity.
Qed.

Lemma WriteTo_Upstream_clientWrites (buf : list byte) :
  clientWrites (WriteTo Upstream buf) = [].
Proof. destruct buf; reflexivity. Qed.

Lemma WriteTo_dials (s : Sock) (buf : list byte) : dials (WriteTo s buf) = [].
Proof. destruct buf; reflexivity. Qed.

Lemma WriteTo_proxyCalls (s : Sock) (buf : list byte) :
  proxyCalls (WriteTo s buf) = [].
Proof. destruct buf; reflexivity. Qed.

Lemma WriteTo_dispatcherLogs (s : Sock) (buf : list byte) :
  dispatcherLogs (WriteTo s buf) = [].
Proof. destruct buf; reflexivity. Qed.

Ltac observe_more :=
  repeat (cbn [app clientWrites dials proxyCalls dispatcherLogs length]
          || rewrite clientWrites_app
          || rewrite dials_app
          || rewrite proxyCalls_app
          || rewrite dispatcherLogs_app
          || rewrite alert_clientWrites
          || rewrite alert_dials
          || rewrite alert_proxyCalls
          || rewrite alert_dispatcherLogs
          || rewrite WriteTo_Upstream_clientWrites
          || rewrite WriteTo_dials
          || rewrite WriteTo_proxyCalls
          || rewrite WriteTo_dispatcherLogs
          || rewrite app_nil_r).

(** X14.  Whatever happens on a connection, [dispatchConn] itself writes
    exactly one log entry (the entries of [alert] not counted): every
    abort and every routed connection is logged once. *)
Theorem dispatchConn_logs_once :
  forall p env, length (dispatcherLogs (dispatchConn p env)) = 1%nat.
Proof.
  intros p env. dispatch_cases p env; observe_more; reflexivity.
Qed.

(** The client writes that a trace records: none, or one alert. *)
Lemma clientWrites_dispatchConn (p : Proxy) (env : Env) :
  (clientWrites (dispatchConn p env) = []
   \/ exists desc,
       clientWrites (dispatchConn p env) = [alertMessage desc]
       /\ (desc = tlsInternalError \/ desc = tlsUnrecognizedName
           \/ desc = tlsAccessDenied))
  /\ (existsb isGo (dispatchConn p env) = true ->
      clientWrites (dispatchConn p env) = []).
Proof.
  split.
  - dispatch_cases p env; observe_more;
      destruct (alertDeadlineErr env); auto; right; eexists; split;
        try reflexivity; auto.
  - dispatch_cases p env; observe_trace; observe_more;
      try discriminate; reflexivity.
Qed.

Lemma clientWrites_untilRelay_nil (tr : list event) :
  clientWrites tr = [] -> clientWrites (untilRelay tr) = [].
Proof.
  induction tr as [|e tr IH]; intro H; [reflexivity|].
  cbn [untilRelay]. destruct (isGo e) eqn:He; [reflexivity|].
  destruct e as [| | | | |[] bs| | | | | |]; cbn [clientWrites] in *;
    try discriminate; auto.
Qed.

(** X11.  Before the two copy tasks of the relay are started,
    [dispatchConn] writes to the client at most once, and then an alert
    record whose description is internal error, unrecognized name or
    access denied; on a connection that reaches the relay it has written
    nothing to the client when the copy tasks start; a connection that
    never starts a copy task is covered as a whole. *)
Theorem dispatchConn_sends_at_most_one_alert_outside_the_relay :
  forall p env,
    (clientWrites (untilRelay (dispatchConn p env)) = []
     \/ exists desc,
         clientWrites (untilRelay (dispatchConn p env)) = [alertMessage desc]
         /\ (desc = tlsInternalError \/ desc = tlsUnrecognizedName
             \/ desc = tlsAccessDenied))
    /\ (existsb isGo (dispatchConn p env) = true ->
        clientWrites (untilRelay (dispatchConn p env)) = [])
    /\ (existsb isGo (dispatchConn p env) = false ->
        untilRelay (dispatchConn p env) = dispatchConn p env).
Proof.
  intros p env.
  destruct (clientWrites_dispatchConn p env) as [Hall Hrelay].
  assert (Hgo : existsb isGo (dispatchConn p env) = true ->
                clientWrites (untilRelay (dispatchConn p env)) = [])
    by (intro H; apply clientWrites_untilRelay_nil, Hrelay, H).
  split; [|split; [exact Hgo | apply untilRelay_no_Go]].
  destruct (existsb isGo (dispatchConn p env)) eqn:E.
  - left. apply Hgo. reflexivity.
  - rewrite (untilRelay_no_Go _ E). exact Hall.
Qed.

Lemma alertMessage_inj (a b : byte) : alertMessage a = alertMessage b -> a = b.
Proof. cbn. intro H. injection H as H. exact H. Qed.

Lemma WriteToErr_Some (buf : list byte) (failure : option error) (e : error) :
  WriteToErr buf failure = Some e -> failure = Some e.
Proof. destruct buf; [discriminate | auto]. Qed.

Ltac sent_alert H :=
  destruct (alertDeadlineErr _); cbn [In] in H; [destruct H|];
  destruct H as [H|[]]; apply alertMessage_inj in H;
  try (vm_compute in H; discriminate).

(** X10.  The description of the alert a client receives tells why the
    connection was given up: unrecognized name only when no route matched
    the sniffed hostname, access denied only when a route matched and
    [clientAllowed] refused the client, internal error only when a socket
    operation, the sniffing, the dial, the PROXY header or the replay
    failed. *)
Theorem alert_description_tells_why_dispatchConn_gave_up :
  forall p env,
    (In (alertMessage tlsUnrecognizedName) (clientWrites (dispatchConn p env)) ->
     exists sni tee e, sniff env = (Ok sni, tee) /\ Match p sni = Err e)
    /\ (In (alertMessage tlsAccessDenied) (clientWrites (dispatchConn p env)) ->
        exists sni tee route,
          sniff env = (Ok sni, tee)
          /\ Match p sni = Ok route
          /\ clientAllowed route (remoteIP env) = false)
    /\ (In (alertMessage tlsInternalError) (clientWrites (dispatchConn p env)) ->
        setReadDeadlineErr env <> None
        \/ (exists e, fst (sniff env) = Err e)
        \/ clearReadDeadlineErr env <> None
        \/ dialErr env <> None
        \/ proxyHeaderErr env <> None
        \/ replayErr env <> None).
Proof.
  intros p env. split; [|split].
  - dispatch_cases p env; observe_more; intro H;
      try (destruct H; fail); sent_alert H.
    do 3 eexists; split; [reflexivity | eassumption].
  - dispatch_cases p env; observe_more; intro H;
      try (destruct H; fail); sent_alert H.
    do 3 eexists; repeat split; eassumption.
  - dispatch_cases p env; observe_more; intro H;
      try (destruct H; fail); sent_alert H;
      try (apply WriteToErr_Some in Hreplay);
      cbn [fst];
      first [ left; congruence
            | right; left; eexists; reflexivity
            | right; right; left; congruence
            | right; right; right; left; congruence
            | right; right; right; right; left; congruence
            | right; right; right; right; right; congruence ].
Qed.

Lemma In_dials (backend : string) (failure : option error) (tr : list event) :
  In (Dial backend failure) tr -> In (backend, failure) (dials tr).
Proof.
  induction tr as [|e tr IH]; [auto|].
  intros [->|H]; [left; reflexivity|].
  destruct e; cbn [dials]; auto. right. auto.
Qed.

Lemma In_proxyCalls (mode : config.ProxyMode) (tr : list event) :
  In (ProxyHeader mode) tr -> In mode (proxyCalls tr).
Proof.
  induction tr as [|e tr IH]; [auto|].
  intros [->|H]; [left; reflexivity|].
  destruct e; cbn [proxyCalls]; auto. right. auto.
Qed.

(** X12.  A dial is made only after the read deadline was set, the
    hostname sniffed, the deadline cleared and keep-alive enabled, in that
    order; its target is the backend of the route matched for the sniffed
    hostname, the client was admitted by [clientAllowed], and no second
    dial follows. *)
Theorem dispatchConn_dials_the_matched_backend_once :
  forall p env backend failure,
    In (Dial backend failure) (dispatchConn p env) ->
    exists sni tee route rest,
      sniff env = (Ok sni, tee)
      /\ Match p sni = Ok route
      /\ clientAllowed route (remoteIP env) = true
      /\ backend = config.Backend route
      /\ failure = dialErr env
      /\ dispatchConn p env
         = handshakeSteps (io.sink tee) ++ Dial backend failure :: rest
      /\ dials rest = [].
Proof.
  intros p env backend failure H. apply In_dials in H. revert H.
  dispatch_cases p env; observe_more; cbn [In]; intro H;
    try (destruct H; fail);
    destruct H as [H|[]]; injection H as <- <-;
    rewrite (sniff_tee env _ _ Hsniff);
    do 4 eexists;
    (split; [reflexivity|]); (split; [eassumption|]);
    (split; [eassumption|]); (split; [reflexivity|]);
    (split; [reflexivity|]);
    (split; [cbn [app handshakeSteps]; reflexivity|]);
    observe_more; reflexivity.
Qed.

(** X13.  The PROXY-protocol encoder is called only for a route whose
    mode is not [ProxyNone], directly after the successful dial, before
    anything was written on the upstream socket, and only once. *)
Theorem dispatchConn_calls_the_proxy_encoder_right_after_the_dial :
  forall p env mode,
    In (ProxyHeader mode) (dispatchConn p env) ->
    mode <> config.ProxyNone
    /\ exists sni tee route rest,
        sniff env = (Ok sni, tee)
        /\ Match p sni = Ok route
        /\ mode = config.SendProxy route
        /\ dispatchConn p env
           = handshakeSteps (io.sink tee)
             ++ Dial (config.Backend route) None :: ProxyHeader mode :: rest
        /\ proxyCalls rest = []
        /\ written Upstream (handshakeSteps (io.sink tee)) = [].
Proof.
  intros p env mode H. apply In_proxyCalls in H. revert H.
  dispatch_cases p env; observe_more; cbn [In]; intro H;
    try (destruct H; fail);
    destruct H as [H|[]]; subst mode;
    (split; [intro Hn; rewrite Hn in Hmode; discriminate|]);
    rewrite (sniff_tee env _ _ Hsniff);
    do 4 eexists;
    (split; [reflexivity|]); (split; [eassumption|]);
    (split; [reflexivity|]);
    (split; [cbn [app handshakeSteps]; reflexivity|]);
    (split; [observe_more; reflexivity | reflexivity]).
Qed.

(** X18.  After a successful dial the PROXY-protocol encoder is called
    exactly once when the matched route has a mode other than
    [ProxyNone], and not at all when its mode is [ProxyNone]. *)
Theorem dispatchConn_calls_the_proxy_encoder_when_the_route_asks :
  forall p env backend,
    In (Dial backend None) (dispatchConn p env) ->
    exists sni route,
      fst (sniff env) = Ok sni /\ Match p sni = Ok route
      /\ proxyCalls (dispatchConn p env)
         = match config.SendProxy route with
           | config.ProxyNone => []
           | mode => [mode]
           end.
Proof.
  intros p env backend H. apply In_dials in H. revert H.
  dispatch_cases p env; observe_more; cbn [In fst]; intro H;
    try (destruct H; fail);
    destruct H as [H|[]]; try discriminate;
    do 2 eexists; (split; [reflexivity|]); (split; [eassumption|]);
    destruct (config.SendProxy _); try discriminate; reflexivity.
Qed.

(** X15.  When no route matches the sniffed hostname, the dispatcher
    calls [alert] with description 112 (unrecognized name), logs the error
    that quotes the hostname, closes the client and touches nothing on
    the upstream side. *)
Theorem dispatchConn_unknown_hostname_gets_unrecognized_name :
  forall p env sni tee e,
    setReadDeadlineErr env = None ->
    sniff env = (Ok sni, tee) ->
    clearReadDeadlineErr env = None ->
    Match p sni = Err e ->
    dispatchConn p env
    = handshakeSteps (io.sink tee) ++ alert env tlsUnrecognizedName
      ++ [Log (LogError (noRouteError sni)); Close Client]
    /\ Byte.to_N tlsUnrecognizedName = 112%N
    /\ existsb touchesUpstream (dispatchConn p env) = false.
Proof.
  intros p env sni tee e Hrd Hsniff Hclr Hmatch.
  assert (He : e = noRouteError sni) by (apply Match_Err in Hmatch; tauto).
  subst e.
  assert (Htrace : dispatchConn p env
    = handshakeSteps (io.sink tee) ++ alert env tlsUnrecognizedName
      ++ [Log (LogError (noRouteError sni)); Close Client]).
  { unfold dispatchConn, dispatchBody.
    rewrite Hrd, Hsniff, Hclr, Hmatch, (sniff_tee env _ _ Hsniff).
    cbn [app handshakeSteps]. rewrite <- app_assoc. reflexivity. }
  split; [exact Htrace|]. split; [reflexivity|].
  rewrite Htrace. unfold handshakeSteps. observe_trace. reflexivity.
Qed.

(** X16.  When the sniffing fails, the dispatcher calls [alert] with
    description 80 (internal error), logs the error and closes the
    client: the read deadline is not cleared, keep-alive is not enabled,
    no route is looked up and nothing happens on the upstream side. *)
Theorem dispatchConn_failed_sniff_gets_internal_error :
  forall p env tee e,
    setReadDeadlineErr env = None ->
    sniff env = (Err e, tee) ->
    dispatchConn p env
    = [SetReadDeadline In3Seconds; Read (io.sink tee)]
      ++ alert env tlsInternalError ++ [Log (LogError e); Close Client]
    /\ Byte.to_N tlsInternalError = 80%N
    /\ existsb touchesUpstream (dispatchConn p env) = false.
Proof.
  intros p env tee e Hrd Hsniff.
  assert (Htrace : dispatchConn p env
    = [SetReadDeadline In3Seconds; Read (io.sink tee)]
      ++ alert env tlsInternalError ++ [Log (LogError e); Close Client]).
  { unfold dispatchConn, dispatchBody.
    rewrite Hrd, Hsniff, (sniff_tee env _ _ Hsniff).
    cbn [app]. rewrite <- app_assoc. reflexivity. }
  split; [exact Htrace|]. split; [reflexivity|].
  rewrite Htrace. observe_trace. reflexivity.
Qed.

(** ** More on the listener *)

Lemma acceptLoop_spec (answers : list Accepted) :
  dispatched (fst (acceptLoop answers)) = acceptedBeforeError answers
  /\ acceptCalls (fst (acceptLoop answers))
     = S (length (acceptedBeforeError answers))
  /\ snd (acceptLoop answers)
     = match firstAcceptError answers with
       | Some e => Returned e
       | None => Serving
       end
  /\ existsb isCloseListener (fst (acceptLoop answers)) = false.
Proof.
  induction answers as [|[conn|e] rest IH];
    cbn [acceptLoop acceptedBeforeError firstAcceptError].
  - repeat split.
  - destruct (acceptLoop rest) as [tr r]. cbn [fst snd] in *.
    destruct IH as (IH1 & IH2 & IH3 & IH4).
    cbn [dispatched length]. rewrite IH1.
    repeat split; auto.
    unfold acceptCalls in *. cbn [filter length]. rewrite IH2. reflexivity.
  - repeat split.
Qed.

(** X17.  For any sequence of answers of [Accept], [ListenAndServe]
    starts one dispatcher for each connection accepted before the first
    failed accept, in that order; it calls [Accept] once more than it
    starts dispatchers; it returns the first accept error if there is
    one and keeps serving otherwise; and it closes the listener exactly
    when it returns. *)
Theorem ListenAndServe_one_dispatcher_per_accepted_connection :
  forall p bind answers,
    let served := ListenAndServe p bind None answers in
    dispatched (fst served) = acceptedBeforeError answers
    /\ acceptCalls (fst served) = S (length (dispatched (fst served)))
    /\ snd served = match firstAcceptError answers with
                    | Some e => Returned e
                    | None => Serving
                    end
    /\ existsb isCloseListener (fst served)
       = match firstAcceptError answers with
         | Some _ => true
         | None => false
         end.
Proof.
  intros p bind answers served. subst served. unfold ListenAndServe.
  destruct (acceptLoop_spec answers) as (H1 & H2 & H3 & H4).
  destruct (acceptLoop answers) as [tr r]. cbn [fst snd] in *.
  assert (Hd : forall tl, dispatched (tr ++ tl) = dispatched tr ++ dispatched tl).
  { intro tl. clear. induction tr as [|e tr IH]; [reflexivity|].
    destruct e; cbn [app dispatched]; rewrite IH; reflexivity. }
  assert (Ha : forall tl, acceptCalls (tr ++ tl) = (acceptCalls tr + acceptCalls tl)%nat).
  { intro tl. unfold acceptCalls. rewrite filter_app, length_app. reflexivity. }
  destruct (firstAcceptError answers) as [e|]; subst r; cbn [fst snd].
  - change (dispatched (Listen bind :: ?l)) with (dispatched l).
    change (acceptCalls (Listen bind :: ?l)) with (acceptCalls l).
    rewrite Hd, Ha, H1, H2. cbn [dispatched acceptCalls filter length existsb isCloseListener].
    rewrite app_nil_r, Nat.add_0_r, existsb_app. cbn. rewrite orb_true_r.
    repeat split; reflexivity.
  - change (dispatched (Listen bind :: ?l)) with (dispatched l).
    change (acceptCalls (Listen bind :: ?l)) with (acceptCalls l).
    rewrite H1, H2. cbn [existsb isCloseListener orb]. rewrite H4.
    repeat split; reflexivity.
Qed.

(** ** The further properties at sample inputs *)

Lemma clientAllowed_rule_order_witness :
  clientAllowed (config.mkRoute [] "127.0.0.1:9000" config.ProxyNone
                   [samples.net10_8; examples.net10_0_42_24]
                   [samples.net10_1_16; samples.net10_8])
                (net.IPv4 10 0 42 1)
  = clientAllowed (config.mkRoute [] "127.0.0.1:9000" config.ProxyNone
                     [examples.net10_0_42_24; samples.net10_8]
                     [samples.net10_8; samples.net10_1_16])
                  (net.IPv4 10 0 42 1).
Proof.
  apply (clientAllowed_rule_order_is_irrelevant
           "127.0.0.1:9000" [] config.ProxyNone
           [samples.net10_8; examples.net10_0_42_24]
           [examples.net10_0_42_24; samples.net10_8]
           [samples.net10_1_16; samples.net10_8]
           [samples.net10_8; samples.net10_1_16]
           (net.IPv4 10 0 42 1)); apply perm_swap.
Defined.

Lemma clientAllowed_blocklist_witness :
  clientAllowed (samples.aclRoute [] [samples.net10_8]) (net.IPv4 10 0 0 7)
  = negb (existsb (fun subnet => net.Contains subnet (net.IPv4 10 0 0 7))
                  (config.Deny (samples.aclRoute [] [samples.net10_8]))).
Proof.
  apply (clientAllowed_deny_list_alone_is_a_blocklist
           (samples.aclRoute [] [samples.net10_8]) (net.IPv4 10 0 0 7)).
  reflexivity.
Defined.

Lemma clientAllowed_IPv4_forms_witness :
  clientAllowed (samples.aclRoute [samples.net10_8] [samples.net10_1_16])
                (net.v4InV6Prefix ++ net.ip4 10 1 2 3)
  = clientAllowed (samples.aclRoute [samples.net10_8] [samples.net10_1_16])
                  (net.ip4 10 1 2 3).
Proof.
  apply (clientAllowed_same_for_both_forms_of_an_IPv4_address
           (samples.aclRoute [samples.net10_8] [samples.net10_1_16])
           (net.ip4 10 1 2 3)).
  reflexivity.
Defined.

Lemma Match_catch_all_witness :
  exists route,
    Match (mkProxy (config.mkConfig ([samples.R1] ++ samples.R2 :: [samples.strict])))
          "a.com" = Ok route
    /\ In route ([samples.R1] ++ [samples.R2]).
Proof.
  apply (Match_never_passes_a_catch_all_route
           [samples.R1] samples.R2 [samples.strict] regexp.AnyChar "a.com").
  left. reflexivity.
Defined.

Lemma noRouteError_hostname_witness : "b.org"%string = "b.org"%string.
Proof.
  apply (noRouteError_identifies_the_hostname
           examples.otherProxy (mkProxy (config.mkConfig [])) "b.org" "b.org"
           "No route matching the requested domain (b.org)"%string);
    vm_compute; reflexivity.
Defined.

Lemma dispatchConn_dial_witness :
  exists sni tee route rest,
    sniff samples.env = (Ok sni, tee)
    /\ Match samples.svcProxy sni = Ok route
    /\ clientAllowed route (remoteIP samples.env) = true
    /\ "127.0.0.1:9000"%string = config.Backend route
    /\ None = dialErr samples.env
    /\ dispatchConn samples.svcProxy samples.env
       = handshakeSteps (io.sink tee) ++ Dial "127.0.0.1:9000" None :: rest
    /\ dials rest = [].
Proof.
  apply (dispatchConn_dials_the_matched_backend_once
           samples.svcProxy samples.env "127.0.0.1:9000" None).
  vm_compute. do 5 right. left. reflexivity.
Defined.

Lemma dispatchConn_proxy_encoder_witness :
  config.ProxyV1 <> config.ProxyNone
  /\ exists sni tee route rest,
      sniff samples.env = (Ok sni, tee)
      /\ Match examples.proxiedProxy sni = Ok route
      /\ config.ProxyV1 = config.SendProxy route
      /\ dispatchConn examples.proxiedProxy samples.env
         = handshakeSteps (io.sink tee)
           ++ Dial (config.Backend route) None :: ProxyHeader config.ProxyV1 :: rest
      /\ proxyCalls rest = []
      /\ written Upstream (handshakeSteps (io.sink tee)) = [].
Proof.
  apply (dispatchConn_calls_the_proxy_encoder_right_after_the_dial
           examples.proxiedProxy samples.env config.ProxyV1).
  vm_compute. do 6 right. left. reflexivity.
Defined.

Lemma dispatchConn_proxy_encoder_asked_witness :
  exists sni route,
    fst (sniff samples.env) = Ok sni
    /\ Match examples.proxiedProxy sni = Ok route
    /\ proxyCalls (dispatchConn examples.proxiedProxy samples.env)
       = match config.SendProxy route with
         | config.ProxyNone => []
         | mode => [mode]
         end.
Proof.
  apply (dispatchConn_calls_the_proxy_encoder_when_the_route_asks
           examples.proxiedProxy samples.env "127.0.0.1:9000").
  vm_compute. do 5 right. left. reflexivity.
Defined.

Lemma dispatchConn_unknown_hostname_witness :
  dispatchConn examples.otherProxy samples.env
  = handshakeSteps (sni.encodeRecord samples.hello)
    ++ alert samples.env tlsUnrecognizedName
    ++ [Log (LogError (noRouteError "svc.example.com"%string)); Close Client]
  /\ Byte.to_N tlsUnrecognizedName = 112%N
  /\ existsb touchesUpstream (dispatchConn examples.otherProxy samples.env) = false.
Proof.
  apply (dispatchConn_unknown_hostname_gets_unrecognized_name
           examples.otherProxy samples.env "svc.example.com"
           (io.mkTee samples.laterBytes (sni.encodeRecord samples.hello))
           (noRouteError "svc.example.com"));
    vm_compute; reflexivity.
Defined.

Lemma dispatchConn_failed_sniff_witness :
  dispatchConn samples.svcProxy examples.httpEnv
  = [SetReadDeadline In3Seconds; Read (list_byte_of_string "GET /")]
    ++ alert examples.httpEnv tlsInternalError
    ++ [Log (LogError "not a handshake record"%string); Close Client]
  /\ Byte.to_N tlsInternalError = 80%N
  /\ existsb touchesUpstream (dispatchConn samples.svcProxy examples.httpEnv) = false.
Proof.
  apply (dispatchConn_failed_sniff_gets_internal_error
           samples.svcProxy examples.httpEnv
           (io.mkTee (list_byte_of_string " HTTP/1.1")
                     (list_byte_of_string "GET /"))
           "not a handshake record"%string);
    vm_compute; reflexivity.
Defined.
